(** * Expense splitter: ledger, balance calculator and settlement planner

    A shallow embedding of [expense-splitter/src/App.jsx]: the in-memory
    collections of the [ExpenseSplitter] component, its mutation callbacks
    ([addGroup], [addExpense], [recordPayment]), the balance calculator
    ([calculateBalances]), the settlement planner ([settleDebts]) and the
    submit handlers of the two modal forms that guard the callbacks.

    Numbers.  Amounts are modelled as exact rationals ([Q], compared with
    [==]); the rounding of IEEE doubles is outside the model.  The only
    non-finite value the calculator can manufacture is [NaN] (reading a
    missing property and adding to it), so balances carry an explicit
    [NaN] case.

    Objects.  The balance mapping is a JavaScript object used as a map.
    Its keys are member ids produced by [crypto.randomUUID()], which are
    never array-index-like, so [Object.entries] enumerates them in
    insertion order; the mapping is therefore an insertion-ordered
    association list with unique keys. *)

From Stdlib Require Import QArith Qminmax Qabs Lqa Lia Ascii Sorted.
From stdpp Require Import base list strings.

Set Default Proof Using "Type".

(* ================================================================== *)
(** * Definitions *)
(* ================================================================== *)

(** ** Results of fallible code *)

(** [TypeError]: a property read on [undefined].  [OutOfFuel]: the
    iteration budget of a modelled loop was used up before the loop
    condition became false. *)
Inductive outcome (A : Type) : Type :=
  | Returns (a : A)
  | TypeError
  | OutOfFuel.
Arguments Returns {A} a.
Arguments TypeError {A}.
Arguments OutOfFuel {A}.

(** ** JavaScript numbers and comparisons *)

Inductive jsnum : Type :=
  | NaN
  | Num (q : Q).

(** [x > y] and [x < y] on finite numbers. *)
Definition js_gt (x y : Q) : bool :=
  match Qcompare x y with Gt => true | _ => false end.
Definition js_lt (x y : Q) : bool :=
  match Qcompare x y with Lt => true | _ => false end.
Definition js_le (x y : Q) : bool :=
  match Qcompare x y with Gt => false | _ => true end.

(** [o[k] += a] reads [o[k]] first: [undefined + a] and [NaN + a] are
    both [NaN]. *)
Definition js_plus (x : option jsnum) (a : Q) : jsnum :=
  match x with
  | Some (Num q) => Num (q + a)
  | _ => NaN
  end.
Definition js_minus (x : option jsnum) (a : Q) : jsnum :=
  match x with
  | Some (Num q) => Num (q - a)
  | _ => NaN
  end.

(** ** JavaScript objects with string keys, in insertion order *)

Definition obj (V : Type) : Type := list (string * V).

Fixpoint obj_get {V} (o : obj V) (k : string) : option V :=
  match o with
  | [] => None
  | (k', v) :: o' => if String.eqb k' k then Some v else obj_get o' k
  end.

(** [o[k] = v]: overwrite in place, or append a new property. *)
Fixpoint obj_set {V} (o : obj V) (k : string) (v : V) : obj V :=
  match o with
  | [] => [(k, v)]
  | (k', v') :: o' =>
      if String.eqb k' k then (k', v) :: o' else (k', v') :: obj_set o' k v
  end.

Definition obj_keys {V} (o : obj V) : list string := map fst o.

(** ** Strings: [String.prototype.trim] and truthiness *)

(** The ASCII white space of ECMAScript (TAB, LF, VT, FF, CR, SP); strings
    are sequences of 8-bit code units here. *)
Definition is_whitespace (c : ascii) : bool :=
  let n := nat_of_ascii c in
  ((9 <=? n)%nat && (n <=? 13)%nat) || (n =? 32)%nat.

Fixpoint trimStart (s : string) : string :=
  match s with
  | EmptyString => EmptyString
  | String c s' => if is_whitespace c then trimStart s' else s
  end.

Fixpoint trimEnd (s : string) : string :=
  match s with
  | EmptyString => EmptyString
  | String c s' =>
      match trimEnd s' with
      | EmptyString => if is_whitespace c then EmptyString else String c EmptyString
      | t => String c t
      end
  end.

Definition trim (s : string) : string := trimEnd (trimStart s).

(** A string is truthy iff it is not empty. *)
Definition truthy (s : string) : bool :=
  match s with EmptyString => false | _ => true end.

(** [arr.includes(x)] on an array of strings. *)
Definition includes (arr : list string) (x : string) : bool :=
  existsb (String.eqb x) arr.

(** ** Entities *)

Module Member.
Record t := mk { name : string; id : string }.
End Member.

Module Group.
Record t := mk
  { id : string; name : string; members : list Member.t; createdAt : string }.
End Group.

Module Split.
Record t := mk { memberId : string; amount : Q }.
End Split.

Inductive SplitType := equal | custom.

Module Expense.
Record t := mk
  { id : string; groupId : string; description : string; amount : Q;
    paidBy : string; splits : list Split.t; splitType : SplitType;
    date : string }.
End Expense.

Module Payment.
Record t := mk
  { id : string; groupId : string; fromId : string; toId : string;
    amount : Q; date : string }.
End Payment.

Module Settlement.
Record t := mk
  { from : string; fromId : string; to : string; toId : string;
    amount : Q }.
End Settlement.

(** ** Component state and environment *)

(** What [saveData] last wrote under the keys ['groups'], ['expenses'] and
    ['payments'] ([JSON.stringify] is taken as the identity on data). *)
Record Saved := mkSaved
  { saved_groups : list Group.t;
    saved_expenses : list Expense.t;
    saved_payments : list Payment.t }.

(** The [useState] cells of [ExpenseSplitter] that the callbacks touch,
    and the persistent store behind [storage]. *)
Record AppState := mkApp
  { groups : list Group.t;
    expenses : list Expense.t;
    payments : list Payment.t;
    showAddGroup : bool;
    showAddExpense : bool;
    storage : option Saved }.

(** What the platform answers during one callback: the [k]-th call of
    [crypto.randomUUID()] returns [randomUUID k], and
    [new Date().toISOString()] returns [now]. *)
Record Env := mkEnv { randomUUID : nat → string; now : string }.

Definition saveData (newGroups : list Group.t) (newExpenses : list Expense.t)
    (newPayments : list Payment.t) : option Saved :=
  Some (mkSaved newGroups newExpenses newPayments).

(** ** Mutation callbacks *)

Definition addGroup (env : Env) (st : AppState)
    (name : string) (members : list string) : AppState :=
  let newGroup :=
    Group.mk (randomUUID env 0) name
      (imap (λ k m, Member.mk m (randomUUID env (S k))) members)
      (now env) in
  let newGroups := groups st ++ [newGroup] in
  {| groups := newGroups;
     expenses := expenses st;
     payments := payments st;
     showAddGroup := false;
     showAddExpense := showAddExpense st;
     storage := saveData newGroups (expenses st) (payments st) |}.

(** [groups.find(g => g.id === groupId)] *)
Definition find_group (gs : list Group.t) (groupId : string) : option Group.t :=
  List.find (λ g, String.eqb (Group.id g) groupId) gs.

(** [group.members.find(m => m.id === memberId)] *)
Definition find_member (ms : list Member.t) (memberId : string) : option Member.t :=
  List.find (λ m, String.eqb (Member.id m) memberId) ms.

(** With [splitType] equal, [group.members] is read, which throws when no
    group has the id.  For a group without members [perPerson] is not
    finite in JavaScript, but then no split is built from it. *)
Definition addExpense (env : Env) (st : AppState) (groupId description : string)
    (amount : Q) (paidBy : string) (splitType : SplitType)
    (customSplits : list Split.t) : outcome AppState :=
  let group := find_group (groups st) groupId in
  let splits : outcome (list Split.t) :=
    match splitType with
    | equal =>
        match group with
        | None => TypeError
        | Some group =>
            let perPerson := (amount / inject_Z (Z.of_nat (length (Group.members group))))%Q in
            Returns (map (λ m, Split.mk (Member.id m) perPerson) (Group.members group))
        end
    | custom => Returns customSplits
    end in
  match splits with
  | Returns splits =>
      let newExpense :=
        Expense.mk (randomUUID env 0) groupId description amount paidBy
          splits splitType (now env) in
      let newExpenses := expenses st ++ [newExpense] in
      Returns
        {| groups := groups st;
           expenses := newExpenses;
           payments := payments st;
           showAddGroup := showAddGroup st;
           showAddExpense := false;
           storage := saveData (groups st) newExpenses (payments st) |}
  | TypeError => TypeError
  | OutOfFuel => OutOfFuel
  end.

Definition recordPayment (env : Env) (st : AppState)
    (groupId fromId toId : string) (amount : Q) : AppState :=
  let newPayment :=
    Payment.mk (randomUUID env 0) groupId fromId toId amount (now env) in
  let newPayments := payments st ++ [newPayment] in
  {| groups := groups st;
     expenses := expenses st;
     payments := newPayments;
     showAddGroup := showAddGroup st;
     showAddExpense := showAddExpense st;
     storage := saveData (groups st) (expenses st) newPayments |}.

(** ** Balance calculator *)

Definition apply_split (balances : obj jsnum) (split : Split.t) : obj jsnum :=
  obj_set balances (Split.memberId split)
    (js_minus (obj_get balances (Split.memberId split)) (Split.amount split)).

Definition apply_expense (balances : obj jsnum) (expense : Expense.t) : obj jsnum :=
  let balances :=
    obj_set balances (Expense.paidBy expense)
      (js_plus (obj_get balances (Expense.paidBy expense)) (Expense.amount expense)) in
  foldl apply_split balances (Expense.splits expense).

Definition apply_payment (balances : obj jsnum) (payment : Payment.t) : obj jsnum :=
  let balances :=
    obj_set balances (Payment.fromId payment)
      (js_plus (obj_get balances (Payment.fromId payment)) (Payment.amount payment)) in
  obj_set balances (Payment.toId payment)
    (js_minus (obj_get balances (Payment.toId payment)) (Payment.amount payment)).

Definition calculateBalances (st : AppState) (groupId : string) : obj jsnum :=
  let groupExpenses :=
    List.filter (λ e, String.eqb (Expense.groupId e) groupId) (expenses st) in
  let groupPayments :=
    List.filter (λ p, String.eqb (Payment.groupId p) groupId) (payments st) in
  match find_group (groups st) groupId with
  | None => []
  | Some group =>
      let balances :=
        foldl (λ b m, obj_set b (Member.id m) (Num 0)) [] (Group.members group) in
      let balances := foldl apply_expense balances groupExpenses in
      let balances := foldl apply_payment balances groupPayments in
      balances
  end.



(** Referential validity of the ledger entries of one group, and the
    total of an expense's splits. *)
Definition member_ids (group : Group.t) : list string :=
  map Member.id (Group.members group).




Definition expenses_of (st : AppState) (groupId : string) : list Expense.t :=
  List.filter (λ e, String.eqb (Expense.groupId e) groupId) (expenses st).

Definition payments_of (st : AppState) (groupId : string) : list Payment.t :=
  List.filter (λ p, String.eqb (Payment.groupId p) groupId) (payments st).




(** ** Settlement planner *)

#[export] Instance outcome_ret : MRet outcome := λ A a, Returns a.
#[export] Instance outcome_bind : MBind outcome := λ A B f c,
  match c with
  | Returns a => f a
  | TypeError => TypeError
  | OutOfFuel => OutOfFuel
  end.

Module Entry.
Record t := mk { memberId : string; amount : Q }.
End Entry.

(** The body of [Object.entries(balances).forEach(...)]: a comparison
    with [NaN] is false, so a [NaN] balance lands in neither array. *)
Definition classify (acc : list Entry.t * list Entry.t) (kv : string * jsnum)
    : list Entry.t * list Entry.t :=
  let '(creditors, debtors) := acc in
  match kv with
  | (memberId, Num balance) =>
      if js_gt balance 0.01 then
        (creditors ++ [Entry.mk memberId balance], debtors)
      else if js_lt balance (- 0.01) then
        (creditors, debtors ++ [Entry.mk memberId (Qabs balance)])
      else (creditors, debtors)
  | (_, NaN) => (creditors, debtors)
  end.

(** [Array.prototype.sort(compare)]: a stable sort; [x] moves behind [y]
    only when [compare(x, y) > 0]. *)
Fixpoint sort_insert {A} (compare : A → A → Q) (x : A) (l : list A) : list A :=
  match l with
  | [] => [x]
  | y :: l' =>
      if js_gt (compare x y) 0 then y :: sort_insert compare x l' else x :: l
  end.

Definition array_sort {A} (compare : A → A → Q) (l : list A) : list A :=
  foldr (sort_insert compare) [] l.

(** [(a, b) => b.amount - a.amount] *)
Definition by_amount_desc (a b : Entry.t) : Q :=
  (Entry.amount b - Entry.amount a)%Q.

(** The variables of the two-cursor loop. *)
Record LoopState := mkLoop
  { creditors : list Entry.t;
    debtors : list Entry.t;
    i : nat;
    j : nat;
    settlements : list Settlement.t }.

Definition loop_cond (s : LoopState) : bool :=
  (i s <? length (creditors s))%nat && (j s <? length (debtors s))%nat.

Definition loop_body (group : Group.t) (s : LoopState) : outcome LoopState :=
  match creditors s !! i s, debtors s !! j s with
  | Some c, Some d =>
      let payment := Qmin (Entry.amount c) (Entry.amount d) in
      match find_member (Group.members group) (Entry.memberId d),
            find_member (Group.members group) (Entry.memberId c) with
      | Some fromMember, Some toMember =>
          let settlements :=
            settlements s ++
              [Settlement.mk (Member.name fromMember) (Member.id fromMember)
                 (Member.name toMember) (Member.id toMember) payment] in
          let c' := Entry.mk (Entry.memberId c) (Entry.amount c - payment) in
          let d' := Entry.mk (Entry.memberId d) (Entry.amount d - payment) in
          let creditors := <[i s := c']> (creditors s) in
          let debtors := <[j s := d']> (debtors s) in
          let i' := if js_lt (Entry.amount c') 0.01 then S (i s) else i s in
          let j' := if js_lt (Entry.amount d') 0.01 then S (j s) else j s in
          Returns (mkLoop creditors debtors i' j' settlements)
      | _, _ => TypeError
      end
  | _, _ => TypeError
  end.

Fixpoint while_loop (fuel : nat) (group : Group.t) (s : LoopState)
    : outcome LoopState :=
  if loop_cond s then
    match fuel with
    | O => OutOfFuel
    | S fuel => s' ← loop_body group s; while_loop fuel group s'
    end
  else Returns s.

Definition settleDebts (balances : obj jsnum) (group : Group.t)
    : outcome (list Settlement.t) :=
  let '(creditors, debtors) := foldl classify ([], []) balances in
  let creditors := array_sort by_amount_desc creditors in
  let debtors := array_sort by_amount_desc debtors in
  s ← while_loop (length creditors + length debtors) group
        (mkLoop creditors debtors 0 0 []);
  mret (settlements s).

(** What a list of settlements moves into and out of one member. *)
Fixpoint received (memberId : string) (out : list Settlement.t) : Q :=
  match out with
  | [] => 0
  | s :: out' =>
      (if String.eqb (Settlement.toId s) memberId then Settlement.amount s else 0)
      + received memberId out'
  end.

Fixpoint paid (memberId : string) (out : list Settlement.t) : Q :=
  match out with
  | [] => 0
  | s :: out' =>
      (if String.eqb (Settlement.fromId s) memberId then Settlement.amount s else 0)
      + paid memberId out'
  end.

Definition net_transfer (memberId : string) (out : list Settlement.t) : Q :=
  received memberId out - paid memberId out.

(** ** [GroupDetail]: turning a settlement into a payment *)

(** [confirmed] is the answer of [window.confirm]. *)
Definition handleSettlement (confirmed : bool) (env : Env) (st : AppState)
    (group : Group.t) (settlement : Settlement.t) : AppState :=
  if confirmed then
    recordPayment env st (Group.id group) (Settlement.fromId settlement)
      (Settlement.toId settlement) (Settlement.amount settlement)
  else st.

(** ** [AddGroupModal] *)

Module AddGroupModal.
Record t := mk { name : string; memberInput : string; members : list string }.

Definition init : t := mk EmptyString EmptyString [].
Definition setName (m : t) (v : string) : t := mk v (memberInput m) (members m).
Definition setMemberInput (m : t) (v : string) : t := mk (name m) v (members m).

Definition addMember (m : t) : t :=
  if truthy (trim (memberInput m))
     && negb (includes (members m) (trim (memberInput m)))
  then mk (name m) EmptyString (members m ++ [trim (memberInput m)])
  else m.

(** [onAdd] is [addGroup]. *)
Definition handleSubmit (env : Env) (st : AppState) (m : t) : AppState :=
  if truthy (trim (name m)) && (2 <=? length (members m))%nat
  then addGroup env st (name m) (members m)
  else st.

(** Typing each name into the member input and pressing Add. *)
Definition enter_members (m : t) (memberNames : list string) : t :=
  foldl (λ m v, addMember (setMemberInput m v)) m memberNames.
End AddGroupModal.

(** The spec's [createGroup(name, memberNames)] as the form performs it:
    the name is typed, every member name goes through the member input
    and [addMember], then the form is submitted. *)
Definition createGroup (env : Env) (st : AppState)
    (name : string) (memberNames : list string) : AppState :=
  AddGroupModal.handleSubmit env st
    (AddGroupModal.enter_members
       (AddGroupModal.setName AddGroupModal.init name) memberNames).


(** ** [AddExpenseModal] *)

(** The value of an [<input type="number">]: the empty string or a numeric
    literal. *)
Inductive NumberInput := Blank | Typed (q : Q).

Definition parseFloat (v : NumberInput) : jsnum :=
  match v with Blank => NaN | Typed q => Num q end.

(** [parseFloat(v) || 0] *)
Definition parseFloat_or_0 (v : NumberInput) : Q :=
  match v with Blank => 0 | Typed q => q end.

(** The [error] cell; the message text is rendered from these. *)
Inductive FormError :=
  | NoError
  | MissingFields
  | SplitMismatch (splitTotal : Q) (totalAmount : jsnum)
  | InvalidSplitAmount.

Module AddExpenseModal.
Record t := mk
  { description : string; amount : NumberInput; paidBy : string;
    splitType : SplitType; customSplits : list (string * NumberInput);
    error : FormError }.

Definition setError (m : t) (e : FormError) : t :=
  mk (description m) (amount m) (paidBy m) (splitType m) (customSplits m) e.

Definition init (group : Group.t) : t :=
  mk EmptyString Blank
     (match Group.members group with m :: _ => Member.id m | [] => EmptyString end)
     equal
     (map (λ m, (Member.id m, Blank)) (Group.members group))
     NoError.

Definition handleCustomSplitChange (m : t) (memberId : string)
    (value : NumberInput) : t :=
  mk (description m) (amount m) (paidBy m) (splitType m)
     (map (λ s, if String.eqb (fst s) memberId then (fst s, value) else s)
          (customSplits m))
     NoError.

Definition splitTotal (m : t) : Q :=
  foldl (λ sum s, (sum + parseFloat_or_0 (snd s))%Q) 0%Q (customSplits m).

(** [Math.abs(totalAmount - splitTotal) > 0.01] *)
Definition mismatch (totalAmount : jsnum) (splitTotal : Q) : bool :=
  match totalAmount with
  | NaN => false
  | Num t => js_gt (Qabs (t - splitTotal)) 0.01
  end.

(** [!s.amount || parseFloat(s.amount) <= 0] *)
Definition invalid_amount (v : NumberInput) : bool :=
  match v with Blank => true | Typed q => js_le q 0 end.

Definition validateCustomSplits (m : t) : bool * t :=
  let totalAmount := parseFloat (amount m) in
  let splitTotal := splitTotal m in
  if mismatch totalAmount splitTotal then
    (false, setError m (SplitMismatch splitTotal totalAmount))
  else
    let hasInvalid := existsb (λ s, invalid_amount (snd s)) (customSplits m) in
    if hasInvalid then (false, setError m InvalidSplitAmount)
    else (true, m).

(** [customSplits.map(s => ({ memberId, amount: parseFloat(s.amount) }))];
    it only runs after [validateCustomSplits] has excluded blank
    amounts. *)
Definition finalSplits (m : t) : list Split.t :=
  match splitType m with
  | custom => map (λ s, Split.mk (fst s) (parseFloat_or_0 (snd s))) (customSplits m)
  | equal => []
  end.

(** [onAdd] is [addExpense]; the result is the modal's next state and
    what became of the component state.  The first test of the source,
    [!description.trim() || !amount || !paidBy], is split in two here so
    that the number typed as amount is at hand afterwards. *)
Definition handleSubmit (env : Env) (st : AppState) (group : Group.t) (m : t)
    : t * outcome AppState :=
  match amount m with
  | Blank => (setError m MissingFields, Returns st)
  | Typed total =>
      if negb (truthy (trim (description m))) || negb (truthy (paidBy m)) then
        (setError m MissingFields, Returns st)
      else
        let '(valid, m') :=
          match splitType m with
          | custom => validateCustomSplits m
          | equal => (true, m)
          end in
        if valid then
          (m', addExpense env st (Group.id group) (description m) total
                 (paidBy m) (splitType m) (finalSplits m))
        else (m', Returns st)
  end.
End AddExpenseModal.

(** ** Vocabulary of the planner's properties *)

(** The two arrays built by the [forEach] of [settleDebts], read off the
    mapping directly. *)
Definition is_creditor (v : jsnum) : bool :=
  match v with Num balance => js_gt balance 0.01 | NaN => false end.
Definition is_debtor (v : jsnum) : bool :=
  match v with Num balance => js_lt balance (- 0.01) | NaN => false end.

Definition creditors_of (balances : obj jsnum) : list Entry.t :=
  omap (λ kv, match kv with
              | (k, Num balance) =>
                  if js_gt balance 0.01 then Some (Entry.mk k balance) else None
              | (_, NaN) => None
              end) balances.

Definition debtors_of (balances : obj jsnum) : list Entry.t :=
  omap (λ kv, match kv with
              | (k, Num balance) =>
                  if js_gt balance 0.01 then None
                  else if js_lt balance (- 0.01)
                       then Some (Entry.mk k (Qabs balance)) else None
              | (_, NaN) => None
              end) balances.

(** The number of members with balance above 0.01, and below -0.01. *)
Definition num_creditors (balances : obj jsnum) : nat :=
  length (List.filter (λ kv, is_creditor (snd kv)) balances).
Definition num_debtors (balances : obj jsnum) : nat :=
  length (List.filter (λ kv, is_debtor (snd kv)) balances).

Definition entry_ids (l : list Entry.t) : list string := Entry.memberId <$> l.

Definition amounts_total (l : list Entry.t) : Q :=
  foldr (λ e acc, (Entry.amount e + acc)%Q) 0%Q l.

(** A settlement that names members of the group and moves a positive
    amount. *)
Definition names_member (group : Group.t) (id name : string) : Prop :=
  ∃ m, m ∈ Group.members group ∧ Member.id m = id ∧ Member.name m = name.

Definition settlement_ok (group : Group.t) (x : Settlement.t) : Prop :=
  (0 < Settlement.amount x)%Q
  ∧ names_member group (Settlement.fromId x) (Settlement.from x)
  ∧ names_member group (Settlement.toId x) (Settlement.to x).

(** What the loop keeps true of its variables, whatever the arrays are:
    entries from the cursor on hold at least 0.01, entries behind it hold
    less, ids never change, and what was emitted so far is well formed and
    goes from a debtor to a creditor. *)
Record loop_inv (group : Group.t) (cids dids : list string) (s : LoopState)
    : Prop := mk_loop_inv
  { inv_cids : entry_ids (creditors s) = cids;
    inv_dids : entry_ids (debtors s) = dids;
    inv_c_open : ∀ k c, creditors s !! k = Some c → (i s ≤ k)%nat →
                        (0.01 <= Entry.amount c)%Q;
    inv_c_done : ∀ k c, creditors s !! k = Some c → (k < i s)%nat →
                        (0 <= Entry.amount c < 0.01)%Q;
    inv_d_open : ∀ k d, debtors s !! k = Some d → (j s ≤ k)%nat →
                        (0.01 <= Entry.amount d)%Q;
    inv_d_done : ∀ k d, debtors s !! k = Some d → (k < j s)%nat →
                        (0 <= Entry.amount d < 0.01)%Q;
    inv_out : Forall (λ x, settlement_ok group x
                           ∧ Settlement.toId x ∈ cids
                           ∧ Settlement.fromId x ∈ dids) (settlements s) }.

(** The ledger view of the loop: what an entry still holds plus what its
    member has received (paid) so far is what the entry started with. *)
Record ledger_inv (cs0 ds0 : list Entry.t) (s : LoopState) : Prop := mk_ledger_inv
  { led_c : ∀ k c0, cs0 !! k = Some c0 →
      ∃ c, creditors s !! k = Some c
           ∧ Entry.amount c0 == Entry.amount c
                                + received (Entry.memberId c0) (settlements s);
    led_d : ∀ k d0, ds0 !! k = Some d0 →
      ∃ d, debtors s !! k = Some d
           ∧ Entry.amount d0 == Entry.amount d
                                + paid (Entry.memberId d0) (settlements s);
    led_total : amounts_total (creditors s) - amounts_total (debtors s)
                == amounts_total cs0 - amounts_total ds0 }.




(** The arrays after the two [sort] calls, and the state in which the
    loop starts. *)
Definition sorted_creditors (balances : obj jsnum) : list Entry.t :=
  array_sort by_amount_desc (creditors_of balances).
Definition sorted_debtors (balances : obj jsnum) : list Entry.t :=
  array_sort by_amount_desc (debtors_of balances).
Definition initial_state (balances : obj jsnum) : LoopState :=
  mkLoop (sorted_creditors balances) (sorted_debtors balances) 0 0 [].



(** Equality of balance mappings and of settlement lists up to the
    representation of the rational amounts. *)
Definition jsnum_eq (x y : jsnum) : Prop :=
  match x, y with
  | NaN, NaN => True
  | Num a, Num b => a == b
  | _, _ => False
  end.

Definition balances_eq (b1 b2 : obj jsnum) : Prop :=
  Forall2 (λ x y, fst x = fst y ∧ jsnum_eq (snd x) (snd y)) b1 b2.

Definition settlement_eq (x y : Settlement.t) : Prop :=
  Settlement.from x = Settlement.from y
  ∧ Settlement.fromId x = Settlement.fromId y
  ∧ Settlement.to x = Settlement.to y
  ∧ Settlement.toId x = Settlement.toId y
  ∧ Settlement.amount x == Settlement.amount y.

Definition settlements_eq (l1 l2 : list Settlement.t) : Prop :=
  Forall2 settlement_eq l1 l2.

(** ** Vocabulary of the mutation properties *)




(** ** Example ledgers *)

Definition ann : Member.t := Member.mk "Ann" "m-ann".
Definition bob : Member.t := Member.mk "Bob" "m-bob".
Definition cy : Member.t := Member.mk "Cy" "m-cy".

Definition flat : Group.t := Group.mk "g-flat" "Flat" [ann; bob] "2024-01-01".
Definition trio : Group.t := Group.mk "g-trio" "Trip" [ann; bob; cy] "2024-01-02".

Definition empty_app : AppState := mkApp [] [] [] false false None.
Definition flat_app : AppState := mkApp [flat] [] [] false false None.
Definition trio_app : AppState := mkApp [trio] [] [] false false None.

(** An environment whose [k]-th UUID is ["id-"] followed by [k] marks. *)
Fixpoint marks (k : nat) : string :=
  match k with O => EmptyString | S k => String "i" (marks k) end.
Definition example_env : Env := mkEnv (λ k, String.append "id-" (marks k)) "2024-02-01".



(** [trio] after Ann paid a dinner of 90 that is split equally, the
    balances of that ledger and the settlements planned for it. *)
Definition dinner_app : AppState :=
  match addExpense example_env trio_app "g-trio" "Dinner" 90 "m-ann" equal [] with
  | Returns st => st
  | _ => trio_app
  end.

Definition dinner_balances : obj jsnum :=
  Eval vm_compute in calculateBalances dinner_app "g-trio".

Definition dinner_settlements : list Settlement.t :=
  match settleDebts dinner_balances trio with
  | Returns out => out
  | _ => []
  end.

(** [flat] after Ann paid 0.01 that is split equally: both balances are
    inside the planner's tolerance. *)
Definition gum_app : AppState :=
  match addExpense example_env flat_app "g-flat" "Gum" 0.01 "m-ann" equal [] with
  | Returns st => st
  | _ => flat_app
  end.

Definition gum_balances : obj jsnum :=
  Eval vm_compute in calculateBalances gum_app "g-flat".



(** ** Further code of the component *)



(** [AddGroupModal.removeMember]: [members.filter((_, i) => i !== index)]. *)
Fixpoint filter_index {A} (keep : nat → bool) (start : nat) (l : list A) : list A :=
  match l with
  | [] => []
  | x :: l' =>
      if keep start then x :: filter_index keep (S start) l'
      else filter_index keep (S start) l'
  end.

Definition removeMember (m : AddGroupModal.t) (index : nat) : AddGroupModal.t :=
  AddGroupModal.mk (AddGroupModal.name m) (AddGroupModal.memberInput m)
    (filter_index (λ i, negb (i =? index)%nat) 0 (AddGroupModal.members m)).

(** The states the group form can be in: what the four handlers make of
    the initial state. *)
Inductive group_form_reachable : AddGroupModal.t → Prop :=
  | reach_init : group_form_reachable AddGroupModal.init
  | reach_setName m v :
      group_form_reachable m → group_form_reachable (AddGroupModal.setName m v)
  | reach_setMemberInput m v :
      group_form_reachable m →
      group_form_reachable (AddGroupModal.setMemberInput m v)
  | reach_addMember m :
      group_form_reachable m → group_form_reachable (AddGroupModal.addMember m)
  | reach_removeMember m index :
      group_form_reachable m → group_form_reachable (removeMember m index).




(** ** Vocabulary of the further properties *)

(** What one expense, and one payment, does to the balance of one member. *)
Definition share (memberId : string) (splits : list Split.t) : Q :=
  foldr (λ sp acc,
           ((if String.eqb (Split.memberId sp) memberId
             then Split.amount sp else 0) + acc)%Q) 0%Q splits.

Definition expense_effect (memberId : string) (e : Expense.t) : Q :=
  ((if String.eqb (Expense.paidBy e) memberId then Expense.amount e else 0)
   - share memberId (Expense.splits e))%Q.

Definition payment_effect (memberId : string) (p : Payment.t) : Q :=
  ((if String.eqb (Payment.fromId p) memberId then Payment.amount p else 0)
   - (if String.eqb (Payment.toId p) memberId then Payment.amount p else 0))%Q.

(** What the ledger of a group owes to (positive) or is owed by (negative)
    one member. *)
Definition expenses_effect (memberId : string) (es : list Expense.t) : Q :=
  foldr (λ e acc, (expense_effect memberId e + acc)%Q) 0%Q es.

Definition payments_effect (memberId : string) (ps : list Payment.t) : Q :=
  foldr (λ p acc, (payment_effect memberId p + acc)%Q) 0%Q ps.

Definition expected_balance (st : AppState) (groupId memberId : string) : Q :=
  (expenses_effect memberId (expenses_of st groupId)
   + payments_effect memberId (payments_of st groupId))%Q.

(** The mapping holds a finite balance equal to [q] for the member. *)
Definition has_balance (b : obj jsnum) (memberId : string) (q : Q) : Prop :=
  ∃ q', obj_get b memberId = Some (Num q') ∧ q' == q.

(** A member id that some expense or payment of the group mentions. *)
Definition mentions_expense (k : string) (e : Expense.t) : Prop :=
  Expense.paidBy e = k ∨ ∃ sp, sp ∈ Expense.splits e ∧ Split.memberId sp = k.

Definition mentions_payment (k : string) (p : Payment.t) : Prop :=
  Payment.fromId p = k ∨ Payment.toId p = k.

Definition referenced (st : AppState) (groupId k : string) : Prop :=
  (∃ e, e ∈ expenses_of st groupId ∧ mentions_expense k e)
  ∨ (∃ p, p ∈ payments_of st groupId ∧ mentions_payment k p).



(** [trio] with a stray expense paid by an id that is no member. *)
Definition stray_app : AppState :=
  match addExpense example_env trio_app "g-trio" "Stray" 10 "m-zed" custom
          [Split.mk "m-ann" 10] with
  | Returns st => st
  | _ => trio_app
  end.


(** The input handlers of [AddExpenseModal]; changing the amount or the
    split type also clears the error. *)
Definition setDescription (m : AddExpenseModal.t) (v : string) : AddExpenseModal.t :=
  AddExpenseModal.mk v (AddExpenseModal.amount m) (AddExpenseModal.paidBy m)
    (AddExpenseModal.splitType m) (AddExpenseModal.customSplits m)
    (AddExpenseModal.error m).

Definition changeAmount (m : AddExpenseModal.t) (v : NumberInput) : AddExpenseModal.t :=
  AddExpenseModal.mk (AddExpenseModal.description m) v (AddExpenseModal.paidBy m)
    (AddExpenseModal.splitType m) (AddExpenseModal.customSplits m) NoError.

Definition setPaidBy (m : AddExpenseModal.t) (v : string) : AddExpenseModal.t :=
  AddExpenseModal.mk (AddExpenseModal.description m) (AddExpenseModal.amount m) v
    (AddExpenseModal.splitType m) (AddExpenseModal.customSplits m)
    (AddExpenseModal.error m).

Definition changeSplitType (m : AddExpenseModal.t) (v : SplitType) : AddExpenseModal.t :=
  AddExpenseModal.mk (AddExpenseModal.description m) (AddExpenseModal.amount m)
    (AddExpenseModal.paidBy m) v (AddExpenseModal.customSplits m) NoError.

(** The states the expense form of a group can be in. *)
Inductive expense_form_reachable (group : Group.t) : AddExpenseModal.t → Prop :=
  | ereach_init : expense_form_reachable group (AddExpenseModal.init group)
  | ereach_description m v :
      expense_form_reachable group m →
      expense_form_reachable group (setDescription m v)
  | ereach_amount m v :
      expense_form_reachable group m →
      expense_form_reachable group (changeAmount m v)
  | ereach_paidBy m v :
      expense_form_reachable group m →
      expense_form_reachable group (setPaidBy m v)
  | ereach_splitType m v :
      expense_form_reachable group m →
      expense_form_reachable group (changeSplitType m v)
  | ereach_split m memberId v :
      expense_form_reachable group m →
      expense_form_reachable group
        (AddExpenseModal.handleCustomSplitChange m memberId v)
  | ereach_submit env st m :
      expense_form_reachable group m →
      expense_form_reachable group
        (fst (AddExpenseModal.handleSubmit env st group m)).

(** The form of [flat] with a custom split of 100 into 60 and 40. *)
Definition fair_form : AddExpenseModal.t :=
  AddExpenseModal.handleCustomSplitChange
    (AddExpenseModal.handleCustomSplitChange
       (changeSplitType
          (changeAmount (setDescription (AddExpenseModal.init flat) "Rent")
             (Typed 100)) custom)
       "m-ann" (Typed 60))
    "m-bob" (Typed 40).


(** Entries in the order [sort] leaves them: largest amount first. *)
Definition amount_ge (a b : Entry.t) : Prop :=
  (Entry.amount b <= Entry.amount a)%Q.

(** Balances of two ids that [flat] does not have. *)
Definition foreign_balances : obj jsnum :=
  [("m-zed", Num 5); ("m-yan", Num (- 5))].

(** A string without white space at its start. *)
Definition starts_clean (s : string) : Prop :=
  match s with
  | EmptyString => True
  | String c _ => is_whitespace c = false
  end.

(** What the group form keeps true of its member list. *)
Definition clean_names (names : list string) : Prop :=
  NoDup names ∧ Forall (λ x, x ≠ EmptyString ∧ trim x = x) names.



(** The group form after typing a name and three member names, adding
    each, and removing the second. *)
Definition club_form : AddGroupModal.t :=
  removeMember
    (AddGroupModal.addMember
       (AddGroupModal.setMemberInput
          (AddGroupModal.addMember
             (AddGroupModal.setMemberInput
                (AddGroupModal.addMember
                   (AddGroupModal.setMemberInput
                      (AddGroupModal.setName AddGroupModal.init "Club") " Ann "))
                "Bob"))
          "Cy "))
    1.

(** ** The component as a transition system *)










(* ================================================================== *)
(** * Properties *)
(* ================================================================== *)

(** ** The example ledgers are what the code computes *)

Lemma dinner_balances_eq : dinner_balances = calculateBalances dinner_app "g-trio".
Proof. vm_compute. reflexivity. Qed.

Lemma dinner_settlements_eq :
  settleDebts (calculateBalances dinner_app "g-trio") trio = Returns dinner_settlements.
Proof. vm_compute. reflexivity. Qed.

Lemma gum_balances_eq : gum_balances = calculateBalances gum_app "g-flat".
Proof. vm_compute. reflexivity. Qed.

(** ** Comparisons *)

Lemma js_gt_spec (x y : Q) : reflect (y < x)%Q (js_gt x y).
Proof.
  unfold js_gt. destruct (x ?= y)%Q eqn:E; constructor.
  - apply Qeq_alt in E. lra.
  - apply Qlt_alt in E. lra.
  - by apply Qgt_alt in E.
Qed.

Lemma js_lt_spec (x y : Q) : reflect (x < y)%Q (js_lt x y).
Proof.
  unfold js_lt. destruct (x ?= y)%Q eqn:E; constructor.
  - apply Qeq_alt in E. lra.
  - by apply Qlt_alt in E.
  - apply Qgt_alt in E. lra.
Qed.


(** ** Objects *)

Section objects.
Context {V : Type}.
Implicit Types (o : obj V) (k : string) (v : V).

Lemma obj_keys_set o k v x :
  x ∈ obj_keys (obj_set o k v) ↔ x = k ∨ x ∈ obj_keys o.
Proof.
  induction o as [|[k' v'] o IH]; simpl.
  - rewrite elem_of_cons, elem_of_nil. tauto.
  - destruct (String.eqb_spec k' k) as [->|Hne]; simpl;
      rewrite !elem_of_cons; [tauto|]. rewrite IH. tauto.
Qed.



Lemma obj_get_present o k : k ∈ obj_keys o → is_Some (obj_get o k).
Proof.
  induction o as [|[k' v'] o IH]; simpl; intros Hk.
  - by apply elem_of_nil in Hk.
  - destruct (String.eqb_spec k' k) as [->|Hne]; [by eexists|].
    apply elem_of_cons in Hk as [->|Hk]; [done|]. by apply IH.
Qed.

Lemma obj_get_elem o k v : obj_get o k = Some v → (k, v) ∈ o.
Proof.
  induction o as [|[k' v'] o IH]; simpl; [done|].
  destruct (String.eqb_spec k' k) as [->|Hne].
  - intros [= ->]. apply elem_of_cons. by left.
  - intros H. apply elem_of_cons. right. by apply IH.
Qed.

Lemma obj_elem_get o k v : NoDup (obj_keys o) → (k, v) ∈ o → obj_get o k = Some v.
Proof.
  induction o as [|[k' v'] o IH]; simpl; intros Hnd Hin.
  - by apply elem_of_nil in Hin.
  - apply NoDup_cons in Hnd as [Hk' Hnd].
    apply elem_of_cons in Hin as [[= -> ->]|Hin].
    + by rewrite String.eqb_refl.
    + destruct (String.eqb_spec k' k) as [->|Hne]; [|by apply IH].
      exfalso. apply Hk'. unfold obj_keys.
      change k with (fst (k, v)). apply list_elem_of_In, in_map.
      by apply list_elem_of_In.
Qed.
End objects.

(** ** Balance calculator *)









(** [group.members.forEach(m => { balances[m.id] = 0 })] *)
Lemma obj_set_Forall {V} (P : string * V → Prop) (o : obj V) k v :
  Forall P o → P (k, v) → (∀ k' v', P (k', v') → P (k', v)) →
  Forall P (obj_set o k v).
Proof.
  intros Ho Hkv Hrepl. induction Ho as [|[k' v'] o Hx Ho IH]; simpl.
  - by constructor.
  - destruct (String.eqb_spec k' k) as [->|Hne]; constructor; eauto.
Qed.

Lemma init_balances ms b :
  Forall (λ kv, snd kv = Num 0) b →
  let b' := foldl (λ b m, obj_set b (Member.id m) (Num 0)) b ms in
  Forall (λ kv, snd kv = Num 0) b'
  ∧ (∀ x, x ∈ obj_keys b' ↔ x ∈ map Member.id ms ∨ x ∈ obj_keys b).
Proof.
  revert b. induction ms as [|m ms IH]; intros b Hz; simpl.
  - split; [done|]. intros x. rewrite elem_of_nil. tauto.
  - destruct (IH (obj_set b (Member.id m) (Num 0))) as [H1 H2].
    { by apply obj_set_Forall. }
    split; [done|]. intros x. rewrite H2, obj_keys_set, elem_of_cons. tauto.
Qed.










(** ** Settlement planner: the two arrays *)

Lemma classify_fold balances cs ds :
  foldl classify (cs, ds) balances
  = (cs ++ creditors_of balances, ds ++ debtors_of balances).
Proof.
  revert cs ds. induction balances as [|[k [|q]] b IH]; intros cs ds.
  - simpl. by rewrite !app_nil_r.
  - simpl. apply IH.
  - cbn [foldl classify creditors_of debtors_of omap list_omap].
    destruct (js_gt q 0.01).
    + fold (creditors_of b). fold (debtors_of b). rewrite IH.
      by rewrite <- app_assoc.
    + destruct (js_lt q (- 0.01)).
      * fold (creditors_of b). fold (debtors_of b). rewrite IH.
        by rewrite <- app_assoc.
      * apply IH.
Qed.

Lemma creditors_of_length balances :
  length (creditors_of balances) = num_creditors balances.
Proof.
  unfold num_creditors.
  induction balances as [|[k [|q]] b IH]; [done|exact IH|].
  cbn [creditors_of omap list_omap List.filter is_creditor snd].
  destruct (js_gt q 0.01); simpl; [f_equal|]; exact IH.
Qed.

Lemma debtors_of_length balances :
  length (debtors_of balances) = num_debtors balances.
Proof.
  unfold num_debtors.
  induction balances as [|[k [|q]] b IH]; [done|exact IH|].
  cbn [debtors_of omap list_omap List.filter is_debtor snd].
  destruct (js_gt_spec q 0.01), (js_lt_spec q (- 0.01)); simpl;
    try (f_equal; exact IH); try exact IH.
  lra.
Qed.

Lemma creditors_of_elem balances e :
  e ∈ creditors_of balances ↔
  (Entry.memberId e, Num (Entry.amount e)) ∈ balances ∧ (0.01 < Entry.amount e)%Q.
Proof.
  unfold creditors_of. rewrite list_elem_of_omap. split.
  - intros ([k [|q]] & Hin & Hsome); [done|].
    destruct (js_gt_spec q 0.01); [|done]. by injection Hsome as <-.
  - intros [Hin Hgt]. eexists. split; [exact Hin|]. simpl.
    destruct (js_gt_spec (Entry.amount e) 0.01); [by destruct e|done].
Qed.

Lemma debtors_of_elem balances e :
  e ∈ debtors_of balances ↔
  ∃ q, (Entry.memberId e, Num q) ∈ balances ∧ (q < - 0.01)%Q
       ∧ Entry.amount e = Qabs q.
Proof.
  unfold debtors_of. rewrite list_elem_of_omap. split.
  - intros ([k [|q]] & Hin & Hsome); [done|].
    destruct (js_gt_spec q 0.01); [done|].
    destruct (js_lt_spec q (- 0.01)); [|done]. injection Hsome as <-. eauto.
  - intros (q & Hin & Hlt & Habs). eexists. split; [exact Hin|]. simpl.
    destruct (js_gt_spec q 0.01); [lra|].
    destruct (js_lt_spec q (- 0.01)); [|done]. rewrite <- Habs. by destruct e.
Qed.

(** An object has one value per key, so no member is in both arrays, nor
    twice in one. *)
Lemma partition_NoDup balances :
  NoDup (obj_keys balances) →
  NoDup (entry_ids (creditors_of balances) ++ entry_ids (debtors_of balances)).
Proof.
  induction balances as [|[k v] b IH]; intros Hnd; [constructor|].
  simpl in Hnd. apply NoDup_cons in Hnd as [Hk Hnd]. specialize (IH Hnd).
  assert (∀ x, x ∈ entry_ids (creditors_of b) ++ entry_ids (debtors_of b)
               → x ∈ obj_keys b) as Hsub.
  { intros x. rewrite elem_of_app. unfold entry_ids.
    rewrite !list_elem_of_fmap.
    intros [(e & -> & He)|(e & -> & He)];
      unfold obj_keys; apply list_elem_of_In, in_map_iff.
    - apply creditors_of_elem in He as [He _].
      exists (Entry.memberId e, Num (Entry.amount e)).
      split; [done|]. by apply list_elem_of_In.
    - apply debtors_of_elem in He as (q & He & _).
      exists (Entry.memberId e, Num q). split; [done|]. by apply list_elem_of_In. }
  destruct v as [|q]; [exact IH|].
  cbn [creditors_of debtors_of omap list_omap].
  fold (creditors_of b). fold (debtors_of b).
  destruct (js_gt q 0.01).
  - simpl. apply NoDup_cons. split; [|done]. intros Hin. by apply Hk, Hsub.
  - destruct (js_lt q (- 0.01)); [|exact IH].
    simpl. apply NoDup_app in IH as (Hc & Hcd & Hd).
    apply NoDup_app. split; [done|]. split.
    + intros x Hx. rewrite not_elem_of_cons. split; [|by apply Hcd].
      intros ->. apply Hk, Hsub, elem_of_app. by left.
    + apply NoDup_cons. split; [|done]. intros Hin.
      apply Hk, Hsub, elem_of_app. by right.
Qed.

(** ** Settlement planner: sorting *)

Lemma sort_insert_perm {A} (compare : A → A → Q) x l :
  sort_insert compare x l ≡ₚ x :: l.
Proof.
  induction l as [|y l IH]; simpl; [done|].
  destruct (js_gt (compare x y) 0); [|done].
  rewrite IH. apply Permutation_swap.
Qed.

Lemma array_sort_perm {A} (compare : A → A → Q) l : array_sort compare l ≡ₚ l.
Proof.
  induction l as [|x l IH]; simpl; [done|].
  rewrite sort_insert_perm. by constructor.
Qed.

Lemma entry_ids_perm l l' : l ≡ₚ l' → entry_ids l ≡ₚ entry_ids l'.
Proof. unfold entry_ids. apply fmap_Permutation. Qed.


(** ** Settlement planner: one iteration *)

Lemma find_member_Some ms memberId m :
  find_member ms memberId = Some m → m ∈ ms ∧ Member.id m = memberId.
Proof.
  unfold find_member. intros H. apply find_some in H as [Hin Heq].
  split; [by apply list_elem_of_In|]. by apply String.eqb_eq.
Qed.


(** What an iteration that returns has done. *)
Lemma loop_body_Returns group s s' :
  loop_body group s = Returns s' →
  ∃ c d fromMember toMember,
    creditors s !! i s = Some c ∧ debtors s !! j s = Some d
    ∧ find_member (Group.members group) (Entry.memberId d) = Some fromMember
    ∧ find_member (Group.members group) (Entry.memberId c) = Some toMember
    ∧ let payment := Qmin (Entry.amount c) (Entry.amount d) in
      let c' := Entry.mk (Entry.memberId c) (Entry.amount c - payment) in
      let d' := Entry.mk (Entry.memberId d) (Entry.amount d - payment) in
      s' = mkLoop (<[i s := c']> (creditors s)) (<[j s := d']> (debtors s))
             (if js_lt (Entry.amount c') 0.01 then S (i s) else i s)
             (if js_lt (Entry.amount d') 0.01 then S (j s) else j s)
             (settlements s ++
                [Settlement.mk (Member.name fromMember) (Member.id fromMember)
                   (Member.name toMember) (Member.id toMember) payment]).
Proof.
  unfold loop_body. intros H.
  destruct (creditors s !! i s) as [c|]; [|done].
  destruct (debtors s !! j s) as [d|]; [|done].
  destruct (find_member _ (Entry.memberId d)) as [fm|] eqn:Hfm; [|done].
  destruct (find_member _ (Entry.memberId c)) as [tm|] eqn:Htm; [|done].
  injection H as <-. exists c, d, fm, tm. repeat split; done.
Qed.



(** The loop as the iteration of its body. *)
Lemma while_loop_inv (P : LoopState → Prop) group :
  (∀ s s', P s → loop_cond s = true → loop_body group s = Returns s' → P s') →
  ∀ fuel s s', P s → while_loop fuel group s = Returns s' →
               P s' ∧ loop_cond s' = false.
Proof.
  intros Hstep. induction fuel as [|fuel IH]; intros s s' HP Hrun; simpl in Hrun.
  - destruct (loop_cond s) eqn:Hc; [done|]. by injection Hrun as <-.
  - destruct (loop_cond s) eqn:Hc; [|by injection Hrun as <-].
    destruct (loop_body group s) as [s1| |] eqn:Hb; [|done..].
    simpl in Hrun. eapply IH; [|exact Hrun]. eauto.
Qed.

Lemma entry_ids_insert l k e e' :
  l !! k = Some e → Entry.memberId e' = Entry.memberId e →
  entry_ids (<[k := e']> l) = entry_ids l.
Proof.
  intros Hk Hid. unfold entry_ids. rewrite list_fmap_insert, Hid.
  apply list_insert_id. by rewrite list_lookup_fmap, Hk.
Qed.

Lemma entry_ids_lookup l k e :
  l !! k = Some e → entry_ids l !! k = Some (Entry.memberId e).
Proof. intros Hk. unfold entry_ids. by rewrite list_lookup_fmap, Hk. Qed.

Lemma amounts_total_insert l k e e' :
  l !! k = Some e →
  amounts_total (<[k := e']> l)
  == amounts_total l - Entry.amount e + Entry.amount e'.
Proof.
  revert k. induction l as [|x l IH]; intros [|k] Hk; simpl in *; try done.
  - injection Hk as ->. fold (amounts_total l). lra.
  - fold (amounts_total l) (amounts_total (<[k := e']> l)).
    rewrite (IH k Hk). lra.
Qed.

(** The invariant of the loop is kept by every iteration. *)
Lemma loop_body_inv group cids dids s s' :
  loop_inv group cids dids s → loop_body group s = Returns s' →
  loop_inv group cids dids s'.
Proof.
  intros [Hcids Hdids Hco Hcd Hdo Hdd Hout] Hbody.
  destruct (loop_body_Returns _ _ _ Hbody)
    as (c & d & fm & tm & Hc & Hd & Hfm & Htm & ->).
  apply find_member_Some in Hfm as [Hfm_in Hfm_id].
  apply find_member_Some in Htm as [Htm_in Htm_id].
  pose proof (Hco _ _ Hc (le_n _)) as Hc01.
  pose proof (Hdo _ _ Hd (le_n _)) as Hd01.
  pose proof (Q.le_min_l (Entry.amount c) (Entry.amount d)) as Hminl.
  pose proof (Q.le_min_r (Entry.amount c) (Entry.amount d)) as Hminr.
  constructor; cbn [creditors debtors i j settlements Entry.amount Entry.memberId].
  - rewrite <- Hcids. by eapply entry_ids_insert.
  - rewrite <- Hdids. by eapply entry_ids_insert.
  - intros k c1 Hk Hle.
    destruct (decide (k = i s)) as [->|Hne].
    + rewrite list_lookup_insert_eq in Hk by by eapply lookup_lt_Some.
      injection Hk as <-. simpl in *.
      destruct (js_lt_spec (Entry.amount c - Qmin (Entry.amount c) (Entry.amount d)) 0.01);
        [lia|lra].
    + rewrite list_lookup_insert_ne in Hk by done. eapply Hco; [done|].
      destruct (js_lt _ 0.01); lia.
  - intros k c1 Hk Hlt.
    destruct (decide (k = i s)) as [->|Hne].
    + rewrite list_lookup_insert_eq in Hk by by eapply lookup_lt_Some.
      injection Hk as <-. simpl in *.
      destruct (js_lt_spec (Entry.amount c - Qmin (Entry.amount c) (Entry.amount d)) 0.01);
        [lra|lia].
    + rewrite list_lookup_insert_ne in Hk by done. eapply Hcd; [done|].
      destruct (js_lt _ 0.01); lia.
  - intros k d1 Hk Hle.
    destruct (decide (k = j s)) as [->|Hne].
    + rewrite list_lookup_insert_eq in Hk by by eapply lookup_lt_Some.
      injection Hk as <-. simpl in *.
      destruct (js_lt_spec (Entry.amount d - Qmin (Entry.amount c) (Entry.amount d)) 0.01);
        [lia|lra].
    + rewrite list_lookup_insert_ne in Hk by done. eapply Hdo; [done|].
      destruct (js_lt (Entry.amount d - _) 0.01); lia.
  - intros k d1 Hk Hlt.
    destruct (decide (k = j s)) as [->|Hne].
    + rewrite list_lookup_insert_eq in Hk by by eapply lookup_lt_Some.
      injection Hk as <-. simpl in *.
      destruct (js_lt_spec (Entry.amount d - Qmin (Entry.amount c) (Entry.amount d)) 0.01);
        [lra|lia].
    + rewrite list_lookup_insert_ne in Hk by done. eapply Hdd; [done|].
      destruct (js_lt (Entry.amount d - _) 0.01); lia.
  - apply Forall_app. split; [done|]. constructor; [|constructor].
    cbn. split; [split; [|split]|split].
    + apply Q.min_glb_lt; lra.
    + by exists fm.
    + by exists tm.
    + rewrite Htm_id, <- Hcids. eapply list_elem_of_lookup_2.
      by apply entry_ids_lookup.
    + rewrite Hfm_id, <- Hdids. eapply list_elem_of_lookup_2.
      by apply entry_ids_lookup.
Qed.

(** ** Settlement planner: the whole run *)

Lemma settleDebts_unfold balances group :
  settleDebts balances group
  = (s ← while_loop (length (sorted_creditors balances)
                     + length (sorted_debtors balances)) group
           (initial_state balances);
     mret (settlements s)).
Proof. unfold settleDebts. by rewrite classify_fold. Qed.

Lemma sorted_creditors_elem balances e :
  e ∈ sorted_creditors balances ↔ e ∈ creditors_of balances.
Proof. unfold sorted_creditors. by rewrite array_sort_perm. Qed.

Lemma sorted_debtors_elem balances e :
  e ∈ sorted_debtors balances ↔ e ∈ debtors_of balances.
Proof. unfold sorted_debtors. by rewrite array_sort_perm. Qed.

Lemma initial_inv group balances :
  loop_inv group (entry_ids (sorted_creditors balances))
    (entry_ids (sorted_debtors balances)) (initial_state balances).
Proof.
  constructor; cbn [initial_state creditors debtors i j settlements];
    try done; try (intros; lia).
  - intros k c Hk _. apply list_elem_of_lookup_2, sorted_creditors_elem in Hk.
    apply creditors_of_elem in Hk as [_ Hgt]. lra.
  - intros k d Hk _. apply list_elem_of_lookup_2, sorted_debtors_elem in Hk.
    apply debtors_of_elem in Hk as (q & _ & Hlt & ->).
    rewrite Qabs_neg by lra. lra.
Qed.





(** What holds when [settleDebts] returns. *)
Lemma settleDebts_Returns balances group out :
  settleDebts balances group = Returns out →
  ∃ s, while_loop (length (sorted_creditors balances)
                   + length (sorted_debtors balances)) group
         (initial_state balances) = Returns s
       ∧ settlements s = out
       ∧ loop_cond s = false
       ∧ loop_inv group (entry_ids (sorted_creditors balances))
           (entry_ids (sorted_debtors balances)) s.
Proof.
  rewrite settleDebts_unfold. intros Hrun.
  destruct (while_loop _ _ _) as [s| |] eqn:Hloop; [|done..].
  injection Hrun as <-. exists s. split; [done|]. split; [done|].
  destruct (while_loop_inv
              (loop_inv group (entry_ids (sorted_creditors balances))
                 (entry_ids (sorted_debtors balances))) group)
    with (3 := Hloop) as [Hinv Hcond].
  - intros s1 s2 H1 _ H2. by eapply loop_body_inv.
  - apply initial_inv.
  - done.
Qed.


(** ** Settlement planner: the ledger view *)

Lemma received_snoc memberId out x :
  received memberId (out ++ [x])
  == received memberId out
     + (if String.eqb (Settlement.toId x) memberId then Settlement.amount x else 0).
Proof. induction out as [|y out IH]; simpl; [|rewrite IH]; lra. Qed.

Lemma paid_snoc memberId out x :
  paid memberId (out ++ [x])
  == paid memberId out
     + (if String.eqb (Settlement.fromId x) memberId then Settlement.amount x else 0).
Proof. induction out as [|y out IH]; simpl; [|rewrite IH]; lra. Qed.

Lemma received_none memberId out :
  Forall (λ x, Settlement.toId x ≠ memberId) out → received memberId out == 0.
Proof.
  induction 1 as [|x out Hx _ IH]; simpl; [lra|].
  destruct (String.eqb_spec (Settlement.toId x) memberId); [done|lra].
Qed.

Lemma paid_none memberId out :
  Forall (λ x, Settlement.fromId x ≠ memberId) out → paid memberId out == 0.
Proof.
  induction 1 as [|x out Hx _ IH]; simpl; [lra|].
  destruct (String.eqb_spec (Settlement.fromId x) memberId); [done|lra].
Qed.

Lemma received_nonneg memberId out :
  Forall (λ x, (0 < Settlement.amount x)%Q) out → (0 <= received memberId out)%Q.
Proof.
  induction 1 as [|x out Hx _ IH]; simpl; [lra|].
  destruct (String.eqb (Settlement.toId x) memberId); lra.
Qed.

Lemma paid_nonneg memberId out :
  Forall (λ x, (0 < Settlement.amount x)%Q) out → (0 <= paid memberId out)%Q.
Proof.
  induction 1 as [|x out Hx _ IH]; simpl; [lra|].
  destruct (String.eqb (Settlement.fromId x) memberId); lra.
Qed.

Lemma initial_ledger balances :
  ledger_inv (sorted_creditors balances) (sorted_debtors balances)
    (initial_state balances).
Proof.
  constructor; cbn [initial_state creditors debtors settlements].
  - intros k c0 Hk. exists c0. split; [done|]. simpl. lra.
  - intros k d0 Hk. exists d0. split; [done|]. simpl. lra.
  - lra.
Qed.

Lemma loop_body_ledger group cs0 ds0 s s' :
  NoDup (entry_ids cs0 ++ entry_ids ds0) →
  loop_inv group (entry_ids cs0) (entry_ids ds0) s →
  ledger_inv cs0 ds0 s →
  loop_body group s = Returns s' →
  ledger_inv cs0 ds0 s'.
Proof.
  intros Hnd [Hcids Hdids _ _ _ _ _] [Hlc Hld Htot] Hbody.
  apply NoDup_app in Hnd as (Hndc & _ & Hndd).
  destruct (loop_body_Returns _ _ _ Hbody)
    as (c & d & fm & tm & Hc & Hd & Hfm & Htm & ->).
  apply find_member_Some in Hfm as [_ Hfm_id].
  apply find_member_Some in Htm as [_ Htm_id].
  pose proof (entry_ids_lookup _ _ _ Hc) as Hci. rewrite Hcids in Hci.
  pose proof (entry_ids_lookup _ _ _ Hd) as Hdj. rewrite Hdids in Hdj.
  constructor; cbn [creditors debtors settlements].
  - intros k c0 Hk0. destruct (Hlc k c0 Hk0) as (c1 & Hk1 & Heq).
    pose proof (entry_ids_lookup _ _ _ Hk0) as Hk0i.
    setoid_rewrite received_snoc. cbn [Settlement.toId Settlement.amount].
    destruct (decide (k = i s)) as [->|Hne].
    + rewrite list_lookup_insert_eq by by eapply lookup_lt_Some.
      eexists. split; [done|]. simpl.
      assert (Entry.memberId c = Entry.memberId c0) as Hid by congruence.
      rewrite Htm_id, Hid, String.eqb_refl.
      assert (c1 = c) as -> by congruence. lra.
    + rewrite list_lookup_insert_ne by done.
      exists c1. split; [done|].
      destruct (String.eqb_spec (Member.id tm) (Entry.memberId c0)) as [Heqid|_];
        [|lra].
      exfalso. apply Hne. eapply NoDup_lookup; [exact Hndc|exact Hk0i|].
      by rewrite Hci, <- Htm_id, Heqid.
  - intros k d0 Hk0. destruct (Hld k d0 Hk0) as (d1 & Hk1 & Heq).
    pose proof (entry_ids_lookup _ _ _ Hk0) as Hk0i.
    setoid_rewrite paid_snoc. cbn [Settlement.fromId Settlement.amount].
    destruct (decide (k = j s)) as [->|Hne].
    + rewrite list_lookup_insert_eq by by eapply lookup_lt_Some.
      eexists. split; [done|]. simpl.
      assert (Entry.memberId d = Entry.memberId d0) as Hid by congruence.
      rewrite Hfm_id, Hid, String.eqb_refl.
      assert (d1 = d) as -> by congruence. lra.
    + rewrite list_lookup_insert_ne by done.
      exists d1. split; [done|].
      destruct (String.eqb_spec (Member.id fm) (Entry.memberId d0)) as [Heqid|_];
        [|lra].
      exfalso. apply Hne. eapply NoDup_lookup; [exact Hndd|exact Hk0i|].
      by rewrite Hdj, <- Hfm_id, Heqid.
  - rewrite (amounts_total_insert _ _ _ _ Hc), (amounts_total_insert _ _ _ _ Hd).
    simpl. lra.
Qed.

(** The two invariants together, at the end of a run that returns. *)
Lemma run_ledger balances group fuel s :
  NoDup (obj_keys balances) →
  while_loop fuel group (initial_state balances) = Returns s →
  loop_inv group (entry_ids (sorted_creditors balances))
    (entry_ids (sorted_debtors balances)) s
  ∧ ledger_inv (sorted_creditors balances) (sorted_debtors balances) s.
Proof.
  intros Hnd Hloop.
  set (cs0 := sorted_creditors balances) in *.
  set (ds0 := sorted_debtors balances) in *.
  assert (NoDup (entry_ids cs0 ++ entry_ids ds0)) as Hnd'.
  { unfold cs0, ds0, sorted_creditors, sorted_debtors.
    rewrite !(entry_ids_perm _ _ (array_sort_perm _ _)).
    by apply partition_NoDup. }
  destruct (while_loop_inv
              (λ s, loop_inv group (entry_ids cs0) (entry_ids ds0) s
                    ∧ ledger_inv cs0 ds0 s) group)
    with (3 := Hloop) as [Hinv _]; [| |done].
  - intros s1 s2 [H1 H2] _ Hb. split; [by eapply loop_body_inv|].
    by eapply loop_body_ledger.
  - split; [apply initial_inv|apply initial_ledger].
Qed.

(** ** Settlement planner: the claims *)

(** C3.  Every settlement that [settleDebts] emits has a positive amount,
    and its [fromId]/[from] and [toId]/[to] are the id and name of members
    of the group it was given. *)
Theorem settleDebts_settlements_ok (balances : obj jsnum) (group : Group.t)
    (out : list Settlement.t) :
  settleDebts balances group = Returns out →
  Forall (settlement_ok group) out.
Proof.
  intros Hrun.
  destruct (settleDebts_Returns _ _ _ Hrun) as (s & _ & <- & _ & Hinv).
  eapply Forall_impl; [exact (inv_out _ _ _ _ Hinv)|]. by intros x [H _].
Qed.

Lemma settleDebts_settlements_ok_witness :
  Forall (settlement_ok trio) dinner_settlements.
Proof.
  apply (settleDebts_settlements_ok dinner_balances trio dinner_settlements).
  vm_compute. reflexivity.
Defined.




(** C10.  The keys of a balance mapping are distinct, so no member id is
    in both the creditor and the debtor array that [settleDebts] builds,
    and no settlement it emits goes from a member to that same member. *)
Theorem settleDebts_no_self_transfer (balances : obj jsnum) (group : Group.t)
    (out : list Settlement.t) :
  NoDup (obj_keys balances) →
  settleDebts balances group = Returns out →
  (∀ id, id ∈ entry_ids (fst (foldl classify ([], []) balances)) →
         id ∉ entry_ids (snd (foldl classify ([], []) balances)))
  ∧ Forall (λ x, Settlement.fromId x ≠ Settlement.toId x) out.
Proof.
  intros Hnd Hrun. pose proof (partition_NoDup _ Hnd) as Hpart.
  apply NoDup_app in Hpart as (_ & Hdisj & _).
  split; [by rewrite classify_fold|].
  destruct (settleDebts_Returns _ _ _ Hrun) as (s & _ & <- & _ & Hinv).
  eapply Forall_impl; [exact (inv_out _ _ _ _ Hinv)|].
  intros x (_ & Hto & Hfrom) Heq. rewrite Heq in Hfrom.
  unfold sorted_creditors, sorted_debtors in Hto, Hfrom.
  rewrite (entry_ids_perm _ _ (array_sort_perm _ _)) in Hto.
  rewrite (entry_ids_perm _ _ (array_sort_perm _ _)) in Hfrom.
  by apply (Hdisj _ Hto).
Qed.

Lemma settleDebts_no_self_transfer_witness :
  (∀ id, id ∈ entry_ids (fst (foldl classify ([], []) dinner_balances)) →
         id ∉ entry_ids (snd (foldl classify ([], []) dinner_balances)))
  ∧ Forall (λ x, Settlement.fromId x ≠ Settlement.toId x) dinner_settlements.
Proof.
  apply (settleDebts_no_self_transfer dinner_balances trio dinner_settlements).
  - apply (bool_decide_unpack _). vm_compute. exact I.
  - vm_compute. reflexivity.
Defined.

(** ** Settlement planner: what each member receives and pays *)

Lemma obj_elem_unique {V} (o : obj V) k v v' :
  NoDup (obj_keys o) → (k, v) ∈ o → (k, v') ∈ o → v = v'.
Proof.
  intros Hnd H1 H2. apply (obj_elem_get _ _ _ Hnd) in H1, H2. congruence.
Qed.

Section final_state.
Context (balances : obj jsnum) (group : Group.t) (s : LoopState).
Hypothesis Hkeys : NoDup (obj_keys balances).
Hypothesis Hinv :
  loop_inv group (entry_ids (sorted_creditors balances))
    (entry_ids (sorted_debtors balances)) s.
Hypothesis Hled :
  ledger_inv (sorted_creditors balances) (sorted_debtors balances) s.

Lemma creditor_id k :
  k ∈ entry_ids (sorted_creditors balances) →
  ∃ q, (k, Num q) ∈ balances ∧ (0.01 < q)%Q.
Proof using Type.
  intros Hk. apply list_elem_of_fmap in Hk as (e & -> & He).
  apply sorted_creditors_elem, creditors_of_elem in He. eauto.
Qed.

Lemma debtor_id k :
  k ∈ entry_ids (sorted_debtors balances) →
  ∃ q, (k, Num q) ∈ balances ∧ (q < - 0.01)%Q.
Proof using Type.
  intros Hk. apply list_elem_of_fmap in Hk as (e & -> & He).
  apply sorted_debtors_elem, debtors_of_elem in He as (q & ? & ? & _). eauto.
Qed.

Lemma not_creditor_received k q :
  (k, Num q) ∈ balances → (q <= 0.01)%Q → received k (settlements s) == 0.
Proof using Hkeys Hinv.
  intros Hin Hle. apply received_none.
  eapply Forall_impl; [exact (inv_out _ _ _ _ Hinv)|].
  intros x (_ & Hto & _) Heq. rewrite Heq in Hto.
  apply creditor_id in Hto as (q' & Hin' & Hgt).
  pose proof (obj_elem_unique _ _ _ _ Hkeys Hin Hin') as [= Hq]. subst q'. lra.
Qed.

Lemma not_debtor_paid k q :
  (k, Num q) ∈ balances → (- 0.01 <= q)%Q → paid k (settlements s) == 0.
Proof using Hkeys Hinv.
  intros Hin Hle. apply paid_none.
  eapply Forall_impl; [exact (inv_out _ _ _ _ Hinv)|].
  intros x (_ & _ & Hfrom) Heq. rewrite Heq in Hfrom.
  apply debtor_id in Hfrom as (q' & Hin' & Hgt).
  pose proof (obj_elem_unique _ _ _ _ Hkeys Hin Hin') as [= Hq]. subst q'. lra.
Qed.

(** A creditor's balance is what its entry still holds plus what the
    member received. *)
Lemma creditor_account k q :
  (k, Num q) ∈ balances → (0.01 < q)%Q →
  ∃ c, c ∈ creditors s
       ∧ q == Entry.amount c + received k (settlements s).
Proof using Hled.
  intros Hin Hgt.
  assert (Entry.mk k q ∈ sorted_creditors balances) as He.
  { apply sorted_creditors_elem, creditors_of_elem. by split. }
  apply list_elem_of_lookup_1 in He as [n Hn].
  destruct (led_c _ _ _ Hled n _ Hn) as (c & Hc & Heq).
  exists c. split; [by eapply list_elem_of_lookup_2|]. exact Heq.
Qed.

Lemma debtor_account k q :
  (k, Num q) ∈ balances → (q < - 0.01)%Q →
  ∃ d, d ∈ debtors s
       ∧ - q == Entry.amount d + paid k (settlements s).
Proof using Hled.
  intros Hin Hlt.
  assert (Entry.mk k (Qabs q) ∈ sorted_debtors balances) as He.
  { apply sorted_debtors_elem, debtors_of_elem. by exists q. }
  apply list_elem_of_lookup_1 in He as [n Hn].
  destruct (led_d _ _ _ Hled n _ Hn) as (d & Hd & Heq).
  exists d. split; [by eapply list_elem_of_lookup_2|].
  simpl in Heq. rewrite Qabs_neg in Heq by lra. exact Heq.
Qed.

Lemma entry_nonneg :
  Forall (λ e, (0 <= Entry.amount e)%Q) (creditors s)
  ∧ Forall (λ e, (0 <= Entry.amount e)%Q) (debtors s).
Proof using Hinv.
  split; apply Forall_lookup; intros n e Hn.
  - destruct (le_lt_dec (i s) n) as [Hle|Hlt].
    + pose proof (inv_c_open _ _ _ _ Hinv n e Hn Hle). lra.
    + pose proof (inv_c_done _ _ _ _ Hinv n e Hn Hlt). lra.
  - destruct (le_lt_dec (j s) n) as [Hle|Hlt].
    + pose proof (inv_d_open _ _ _ _ Hinv n e Hn Hle). lra.
    + pose proof (inv_d_done _ _ _ _ Hinv n e Hn Hlt). lra.
Qed.

(** The net transfer of a member has the sign of the balance and never
    exceeds it; members inside the tolerance take part in no transfer. *)
Lemma net_transfer_within k q :
  (k, Num q) ∈ balances →
  ((0.01 < q)%Q → (0 <= net_transfer k (settlements s) <= q)%Q)
  ∧ ((q < - 0.01)%Q → (q <= net_transfer k (settlements s) <= 0)%Q)
  ∧ ((- 0.01 <= q <= 0.01)%Q → net_transfer k (settlements s) == 0).
Proof using Hkeys Hinv Hled.
  intros Hin. destruct entry_nonneg as [Hc Hd]. unfold net_transfer.
  assert (Forall (λ x, (0 < Settlement.amount x)%Q) (settlements s)) as Hpos.
  { eapply Forall_impl; [exact (inv_out _ _ _ _ Hinv)|]. by intros x [[? _] _]. }
  pose proof (received_nonneg k _ Hpos) as Hr.
  pose proof (paid_nonneg k _ Hpos) as Hp.
  split; [|split]; intros Hq.
  - destruct (creditor_account k q Hin Hq) as (c & Hcin & Heq).
    eapply Forall_forall in Hc; [|exact Hcin]. simpl in Hc.
    assert (paid k (settlements s) == 0) by (apply (not_debtor_paid k q Hin); lra).
    lra.
  - destruct (debtor_account k q Hin Hq) as (d & Hdin & Heq).
    eapply Forall_forall in Hd; [|exact Hdin]. simpl in Hd.
    assert (received k (settlements s) == 0)
      by (apply (not_creditor_received k q Hin); lra).
    lra.
  - assert (paid k (settlements s) == 0) by (apply (not_debtor_paid k q Hin); lra).
    assert (received k (settlements s) == 0)
      by (apply (not_creditor_received k q Hin); lra).
    lra.
Qed.
End final_state.

(** ** Settlement planner: whole cents *)
















(** For any balance mapping, the net transfer of a member never exceeds
    the balance and has its sign; inside the tolerance it is zero. *)
Lemma settleDebts_never_overshoots balances group out k q :
  NoDup (obj_keys balances) →
  settleDebts balances group = Returns out →
  (k, Num q) ∈ balances →
  ((0.01 < q)%Q → (0 <= net_transfer k out <= q)%Q)
  ∧ ((q < - 0.01)%Q → (q <= net_transfer k out <= 0)%Q)
  ∧ ((- 0.01 <= q <= 0.01)%Q → net_transfer k out == 0).
Proof.
  intros Hkeys Hrun Hin.
  destruct (settleDebts_Returns _ _ _ Hrun) as (s & Hloop & <- & _ & _).
  destruct (run_ledger _ _ _ _ Hkeys Hloop) as [Hinv Hled].
  by apply (net_transfer_within balances group s).
Qed.



(** ** Running the code on symbolic ids *)

Lemma obj_set_nil {V} k (v : V) : obj_set [] k v = [(k, v)].
Proof. done. Qed.

Lemma obj_set_head {V} (o : obj V) k v v' :
  obj_set ((k, v') :: o) k v = (k, v) :: o.
Proof. simpl. by rewrite String.eqb_refl. Qed.

Lemma obj_set_skip {V} (o : obj V) k k' v v' :
  String.eqb k' k = false →
  obj_set ((k', v') :: o) k v = (k', v') :: obj_set o k v.
Proof. simpl. by intros ->. Qed.

Lemma obj_get_head {V} (o : obj V) k v : obj_get ((k, v) :: o) k = Some v.
Proof. simpl. by rewrite String.eqb_refl. Qed.

Lemma obj_get_skip {V} (o : obj V) k k' v :
  String.eqb k' k = false → obj_get ((k', v) :: o) k = obj_get o k.
Proof. simpl. by intros ->. Qed.

Lemma while_loop_step fuel group s s1 :
  loop_cond s = true → loop_body group s = Returns s1 →
  while_loop (S fuel) group s = while_loop fuel group s1.
Proof. intros Hc Hb. simpl. by rewrite Hc, Hb. Qed.

Lemma while_loop_done fuel group s :
  loop_cond s = false → while_loop fuel group s = Returns s.
Proof. intros Hc. destruct fuel; simpl; by rewrite Hc. Qed.

Lemma loop_body_eq group s c d fromMember toMember :
  creditors s !! i s = Some c → debtors s !! j s = Some d →
  find_member (Group.members group) (Entry.memberId d) = Some fromMember →
  find_member (Group.members group) (Entry.memberId c) = Some toMember →
  loop_body group s =
    let payment := Qmin (Entry.amount c) (Entry.amount d) in
    let c' := Entry.mk (Entry.memberId c) (Entry.amount c - payment) in
    let d' := Entry.mk (Entry.memberId d) (Entry.amount d - payment) in
    Returns (mkLoop (<[i s := c']> (creditors s)) (<[j s := d']> (debtors s))
               (if js_lt (Entry.amount c') 0.01 then S (i s) else i s)
               (if js_lt (Entry.amount d') 0.01 then S (j s) else j s)
               (settlements s ++
                  [Settlement.mk (Member.name fromMember) (Member.id fromMember)
                     (Member.name toMember) (Member.id toMember) payment])).
Proof. intros Hc Hd Hf Ht. unfold loop_body. by rewrite Hc, Hd, Hf, Ht. Qed.

(** Rewrite reads and writes of an object whose keys are known to be
    equal or distinct. *)
Ltac obj_step :=
  first [ rewrite obj_get_head | rewrite obj_set_head | rewrite obj_set_nil
        | rewrite obj_get_skip by assumption
        | rewrite obj_set_skip by assumption
        | progress cbn [js_plus js_minus] ].

(** Decide the comparisons of closed numbers. *)
Ltac eval_cmp :=
  repeat match goal with
  | |- context [js_gt ?a ?b] =>
      let v := eval vm_compute in (js_gt a b) in
      match v with true => idtac | false => idtac end;
      change (js_gt a b) with v
  | |- context [js_lt ?a ?b] =>
      let v := eval vm_compute in (js_lt a b) in
      match v with true => idtac | false => idtac end;
      change (js_lt a b) with v
  end.

(** C5.  In a group of three members A, B, C without earlier expenses or
    payments, recording the expense "Dinner" of 90 paid by A and split
    equally makes [calculateBalances] return A: +60, B: -30, C: -30, and
    [settleDebts] on these balances returns exactly the two settlements
    B to A 30 and C to A 30. *)
Theorem equal_dinner (env : Env) (st : AppState) (g : Group.t) (a b c : Member.t) :
  Group.members g = [a; b; c] →
  NoDup [Member.id a; Member.id b; Member.id c] →
  find_group (groups st) (Group.id g) = Some g →
  expenses_of st (Group.id g) = [] →
  payments_of st (Group.id g) = [] →
  ∃ st' out,
    addExpense env st (Group.id g) "Dinner" 90 (Member.id a) equal [] = Returns st'
    ∧ balances_eq (calculateBalances st' (Group.id g))
        [(Member.id a, Num 60); (Member.id b, Num (- 30)); (Member.id c, Num (- 30))]
    ∧ settleDebts (calculateBalances st' (Group.id g)) g = Returns out
    ∧ settlements_eq out
        [Settlement.mk (Member.name b) (Member.id b) (Member.name a) (Member.id a) 30;
         Settlement.mk (Member.name c) (Member.id c) (Member.name a) (Member.id a) 30].
Proof.
  intros Hms Hnd Hfind Hexp Hpay.
  apply NoDup_cons in Hnd as [Hab Hnd]. apply NoDup_cons in Hnd as [Hbc _].
  rewrite !not_elem_of_cons in Hab. destruct Hab as (Hab & Hac & _).
  rewrite !not_elem_of_cons in Hbc. destruct Hbc as (Hbc & _).
  assert (∀ x y : string, x ≠ y → String.eqb x y = false) as Hneq.
  { intros x y. by destruct (String.eqb_spec x y). }
  pose proof (Hneq _ _ Hab) as Eab. pose proof (Hneq _ _ Hac) as Eac.
  pose proof (Hneq _ _ Hbc) as Ebc.
  pose proof (Hneq _ _ (not_eq_sym Hab)) as Eba.
  pose proof (Hneq _ _ (not_eq_sym Hac)) as Eca.
  pose proof (Hneq _ _ (not_eq_sym Hbc)) as Ecb.
  clear Hneq.
  unfold addExpense. rewrite Hfind, Hms. cbn [mbind length map].
  eexists.
  match goal with |- ∃ out, Returns ?s = _ ∧ _ => set (st' := s) end.
  assert (calculateBalances st' (Group.id g) =
          [(Member.id a, Num (0 + 90 - 90 / inject_Z (Z.of_nat 3)));
           (Member.id b, Num (0 - 90 / inject_Z (Z.of_nat 3)));
           (Member.id c, Num (0 - 90 / inject_Z (Z.of_nat 3)))]) as Hbal.
  { unfold calculateBalances. cbn [st' groups expenses payments].
    rewrite Hfind, Hms.
    fold (payments_of st (Group.id g)). rewrite Hpay.
    rewrite List.filter_app. fold (expenses_of st (Group.id g)). rewrite Hexp.
    cbn [List.filter Expense.groupId app]. rewrite String.eqb_refl.
    cbn [foldl]. unfold apply_expense.
    cbn [Expense.paidBy Expense.amount Expense.splits foldl].
    unfold apply_split. cbn [Split.memberId Split.amount].
    repeat obj_step. reflexivity. }
  rewrite Hbal. clear Hbal.
  match goal with |- context [settleDebts ?x g] => set (B := x) end.
  assert (find_member [a; b; c] (Member.id a) = Some a) as Fa.
  { unfold find_member. simpl. by rewrite String.eqb_refl. }
  assert (find_member [a; b; c] (Member.id b) = Some b) as Fb.
  { unfold find_member. simpl. by rewrite Eab, String.eqb_refl. }
  assert (find_member [a; b; c] (Member.id c) = Some c) as Fc.
  { unfold find_member. simpl. by rewrite Eac, Ebc, String.eqb_refl. }
  eexists. split; [reflexivity|]. split; [repeat constructor|].
  assert (sorted_creditors B
          = [Entry.mk (Member.id a) (0 + 90 - 90 / inject_Z (Z.of_nat 3))]) as Hcs.
  { unfold sorted_creditors, creditors_of, B. cbn [omap list_omap].
    eval_cmp. reflexivity. }
  assert (sorted_debtors B
          = [Entry.mk (Member.id b) (Qabs (0 - 90 / inject_Z (Z.of_nat 3)));
             Entry.mk (Member.id c) (Qabs (0 - 90 / inject_Z (Z.of_nat 3)))]) as Hds.
  { unfold sorted_debtors, debtors_of, B. cbn [omap list_omap]. eval_cmp. cbv iota.
    cbn [array_sort foldr sort_insert]. unfold by_amount_desc. cbn [Entry.amount].
    eval_cmp. reflexivity. }
  split; [|shelve].
  rewrite settleDebts_unfold. unfold initial_state. rewrite Hcs, Hds.
  cbn [length Nat.add].
  erewrite while_loop_step; [|reflexivity|].
  2:{ eapply loop_body_eq; cbn [creditors debtors i j Entry.memberId];
        [reflexivity|reflexivity|rewrite Hms; exact Fb|rewrite Hms; exact Fa]. }
  cbn [creditors debtors i j settlements Entry.amount Entry.memberId
       insert list_insert app].
  eval_cmp. cbv iota.
  erewrite while_loop_step; [|reflexivity|].
  2:{ eapply loop_body_eq; cbn [creditors debtors i j Entry.memberId];
        [reflexivity|reflexivity|rewrite Hms; exact Fc|rewrite Hms; exact Fa]. }
  cbn [creditors debtors i j settlements Entry.amount Entry.memberId
       insert list_insert app].
  eval_cmp. cbv iota.
  rewrite while_loop_done by reflexivity.
  cbn [mbind outcome_bind mret outcome_ret settlements]. reflexivity.
  Unshelve. repeat constructor.
Qed.

Lemma equal_dinner_witness :
  ∃ st' out,
    addExpense example_env trio_app "g-trio" "Dinner" 90 "m-ann" equal [] = Returns st'
    ∧ balances_eq (calculateBalances st' "g-trio")
        [("m-ann", Num 60); ("m-bob", Num (- 30)); ("m-cy", Num (- 30))]
    ∧ settleDebts (calculateBalances st' "g-trio") trio = Returns out
    ∧ settlements_eq out
        [Settlement.mk "Bob" "m-bob" "Ann" "m-ann" 30;
         Settlement.mk "Cy" "m-cy" "Ann" "m-ann" 30].
Proof.
  apply (equal_dinner example_env trio_app trio ann bob cy).
  - reflexivity.
  - apply (bool_decide_unpack _). vm_compute. exact I.
  - reflexivity.
  - reflexivity.
  - reflexivity.
Defined.

(** ** Recording payments *)

(** What [settleDebts] proposes can be recorded as a valid payment. *)
Lemma settleDebts_transfer_valid balances group out :
  NoDup (obj_keys balances) →
  settleDebts balances group = Returns out →
  Forall (λ x, (0 < Settlement.amount x)%Q
               ∧ Settlement.fromId x ∈ member_ids group
               ∧ Settlement.toId x ∈ member_ids group
               ∧ Settlement.fromId x ≠ Settlement.toId x) out.
Proof.
  intros Hnd Hrun. pose proof (partition_NoDup _ Hnd) as Hpart.
  apply NoDup_app in Hpart as (_ & Hdisj & _).
  destruct (settleDebts_Returns _ _ _ Hrun) as (s & _ & <- & _ & Hinv).
  eapply Forall_impl; [exact (inv_out _ _ _ _ Hinv)|].
  intros x ((Hpos & (fm & Hfm & Hfid & _) & (tm & Htm & Htid & _)) & Hto & Hfrom).
  split; [done|]. unfold member_ids. split; [|split].
  - rewrite <- Hfid. apply list_elem_of_In, in_map. by apply list_elem_of_In.
  - rewrite <- Htid. apply list_elem_of_In, in_map. by apply list_elem_of_In.
  - intros Heq. rewrite Heq in Hfrom.
    unfold sorted_creditors, sorted_debtors in Hto, Hfrom.
    rewrite (entry_ids_perm _ _ (array_sort_perm _ _)) in Hto.
    rewrite (entry_ids_perm _ _ (array_sort_perm _ _)) in Hfrom.
    by apply (Hdisj _ Hto).
Qed.

(** C9.  [recordPayment] appends exactly one payment carrying the given
    group id, payer, payee and amount; every payment recorded before stays
    where it was, unchanged, and the groups and the expenses are not
    touched. *)
Theorem recordPayment_appends (env : Env) (st : AppState)
    (groupId fromId toId : string) (amount : Q) :
  let st' := recordPayment env st groupId fromId toId amount in
  payments st'
  = payments st
    ++ [Payment.mk (randomUUID env 0) groupId fromId toId amount (now env)]
  ∧ length (payments st') = S (length (payments st))
  ∧ (∀ k p, payments st !! k = Some p → payments st' !! k = Some p)
  ∧ groups st' = groups st
  ∧ expenses st' = expenses st.
Proof.
  simpl. split; [done|]. split; [|split; [|done]].
  - rewrite length_app. simpl. lia.
  - intros k p Hk. by apply lookup_app_l_Some.
Qed.

(** C8 (as amended).  [recordPayment] validates nothing: whatever its
    arguments, it appends one payment carrying them.  The conditions hold
    for the calls the program makes: [handleSettlement] records, after
    confirmation, a settlement returned by [settleDebts], whose payer and
    payee are distinct members of the group and whose amount is positive;
    without confirmation nothing is recorded. *)
Theorem recordPayment_unvalidated :
  (∀ env st groupId fromId toId amount,
     payments (recordPayment env st groupId fromId toId amount)
     = payments st
       ++ [Payment.mk (randomUUID env 0) groupId fromId toId amount (now env)])
  ∧ (∀ env st group balances out x,
       NoDup (obj_keys balances) →
       settleDebts balances group = Returns out →
       x ∈ out →
       ∃ p, payments (handleSettlement true env st group x) = payments st ++ [p]
            ∧ Payment.groupId p = Group.id group
            ∧ Payment.fromId p ∈ member_ids group
            ∧ Payment.toId p ∈ member_ids group
            ∧ Payment.fromId p ≠ Payment.toId p
            ∧ (0 < Payment.amount p)%Q)
  ∧ (∀ env st group x, handleSettlement false env st group x = st).
Proof.
  split; [done|]. split; [|done].
  intros env st group balances out x Hnd Hrun Hx.
  pose proof (settleDebts_transfer_valid _ _ _ Hnd Hrun) as Hall.
  eapply Forall_forall in Hall as (Hpos & Hf & Ht & Hne); [|exact Hx].
  eexists. split; [reflexivity|]. by simpl.
Qed.

Lemma recordPayment_unvalidated_witness :
  ∃ p, payments (handleSettlement true example_env dinner_app trio
                   (Settlement.mk "Bob" "m-bob" "Ann" "m-ann" (90 # 3)))
       = payments dinner_app ++ [p]
       ∧ Payment.groupId p = "g-trio"
       ∧ Payment.fromId p ∈ member_ids trio
       ∧ Payment.toId p ∈ member_ids trio
       ∧ Payment.fromId p ≠ Payment.toId p
       ∧ (0 < Payment.amount p)%Q.
Proof.
  destruct recordPayment_unvalidated as (_ & H & _).
  apply (H example_env dinner_app trio dinner_balances dinner_settlements).
  - apply (bool_decide_unpack _). vm_compute. exact I.
  - vm_compute. reflexivity.
  - vm_compute. apply list_elem_of_here.
Defined.

(** C8, counterexample.  A payment of -5 from a non-member to that same
    non-member is appended all the same. *)
Lemma recordPayment_accepts_invalid :
  ("m-zed" ∉ member_ids flat)
  ∧ (- 5 <= 0)%Q
  ∧ payments flat_app = []
  ∧ payments (recordPayment example_env flat_app "g-flat" "m-zed" "m-zed" (- 5))
    = [Payment.mk "id-" "g-flat" "m-zed" "m-zed" (- 5) "2024-02-01"].
Proof.
  split; [|by repeat split].
  intros H. apply list_elem_of_In in H. simpl in H.
  destruct H as [H|[H|[]]]; discriminate H.
Qed.

(** ** Creating groups *)

Lemma truthy_spec s : truthy s = true ↔ s ≠ EmptyString.
Proof. destruct s; simpl; split; done. Qed.

Lemma includes_spec arr x : includes arr x = true ↔ x ∈ arr.
Proof.
  unfold includes. rewrite existsb_exists. split.
  - intros (y & Hy & Heq). apply String.eqb_eq in Heq as ->.
    by apply list_elem_of_In.
  - intros Hx. exists x. split; [by apply list_elem_of_In|apply String.eqb_refl].
Qed.







Lemma imap_member_names (f : nat → string) (names : list string) :
  map Member.name (imap (λ k m, Member.mk m (f k)) names) = names.
Proof.
  revert f. induction names as [|x names IH]; intros f; [done|].
  simpl. f_equal. apply (IH (f ∘ S)).
Qed.



(** The boundary cases of the spec: one member is refused, two are
    accepted. *)
Lemma createGroup_solo_pair :
  createGroup example_env empty_app "Solo" ["OnlyOne"] = empty_app
  ∧ map Group.name (groups (createGroup example_env empty_app "Pair" ["A"; "B"]))
    = ["Pair"].
Proof. split; reflexivity. Qed.


(** ** Recording expenses *)





(* ================================================================== *)
(** * Further properties *)
(* ================================================================== *)

(** ** The balance of one member *)

Lemma obj_get_set_eq {V} (o : obj V) k v : obj_get (obj_set o k v) k = Some v.
Proof.
  induction o as [|[k' v'] o IH]; simpl.
  - by rewrite String.eqb_refl.
  - destruct (String.eqb_spec k' k) as [->|Hne]; simpl.
    + by rewrite String.eqb_refl.
    + destruct (String.eqb_spec k' k); [done|exact IH].
Qed.

Lemma obj_get_set_ne {V} (o : obj V) k k' v :
  k ≠ k' → obj_get (obj_set o k v) k' = obj_get o k'.
Proof.
  intros Hne. induction o as [|[k0 v0] o IH]; simpl.
  - by destruct (String.eqb_spec k k').
  - destruct (String.eqb_spec k0 k) as [->|Hk]; simpl.
    + by destruct (String.eqb_spec k k').
    + destruct (String.eqb_spec k0 k'); [done|exact IH].
Qed.

Lemma has_balance_eq b m q q' : q == q' → has_balance b m q → has_balance b m q'.
Proof. intros Heq (x & Hx & Hq). exists x. split; [done|]. by rewrite Hq. Qed.

Lemma has_balance_plus b k a m q :
  has_balance b m q →
  has_balance (obj_set b k (js_plus (obj_get b k) a)) m
    (q + (if String.eqb k m then a else 0)).
Proof.
  intros (x & Hx & Hq). destruct (String.eqb_spec k m) as [->|Hne].
  - rewrite Hx. simpl. eexists. split; [apply obj_get_set_eq|]. lra.
  - exists x. split; [by rewrite obj_get_set_ne|]. lra.
Qed.

Lemma has_balance_minus b k a m q :
  has_balance b m q →
  has_balance (obj_set b k (js_minus (obj_get b k) a)) m
    (q - (if String.eqb k m then a else 0)).
Proof.
  intros (x & Hx & Hq). destruct (String.eqb_spec k m) as [->|Hne].
  - rewrite Hx. simpl. eexists. split; [apply obj_get_set_eq|]. lra.
  - exists x. split; [by rewrite obj_get_set_ne|]. lra.
Qed.

Lemma has_balance_splits b splits m q :
  has_balance b m q →
  has_balance (foldl apply_split b splits) m (q - share m splits).
Proof.
  revert b q. induction splits as [|sp splits IH]; intros b q Hb; simpl.
  - eapply has_balance_eq; [|exact Hb]. lra.
  - eapply has_balance_eq; [|apply IH, has_balance_minus, Hb]. simpl.
    fold (share m splits). lra.
Qed.

Lemma has_balance_expense b e m q :
  has_balance b m q → has_balance (apply_expense b e) m (q + expense_effect m e).
Proof.
  intros Hb. unfold apply_expense, expense_effect.
  eapply has_balance_eq; [|apply has_balance_splits, has_balance_plus, Hb]. lra.
Qed.

Lemma has_balance_payment b p m q :
  has_balance b m q → has_balance (apply_payment b p) m (q + payment_effect m p).
Proof.
  intros Hb. unfold apply_payment, payment_effect.
  eapply has_balance_eq; [|apply has_balance_minus, has_balance_plus, Hb]. lra.
Qed.

Lemma has_balance_expenses b es m q :
  has_balance b m q →
  has_balance (foldl apply_expense b es) m
    (q + expenses_effect m es).
Proof.
  revert b q. induction es as [|e es IH]; intros b q Hb; simpl.
  - eapply has_balance_eq; [|exact Hb]. lra.
  - eapply has_balance_eq; [|apply IH, has_balance_expense, Hb]. simpl.
    fold (expenses_effect m es). lra.
Qed.

Lemma has_balance_payments b ps m q :
  has_balance b m q →
  has_balance (foldl apply_payment b ps) m
    (q + payments_effect m ps).
Proof.
  revert b q. induction ps as [|p ps IH]; intros b q Hb; simpl.
  - eapply has_balance_eq; [|exact Hb]. lra.
  - eapply has_balance_eq; [|apply IH, has_balance_payment, Hb]. simpl.
    fold (payments_effect m ps). lra.
Qed.

Lemma has_balance_init ms m :
  m ∈ map Member.id ms →
  has_balance (foldl (λ b x, obj_set b (Member.id x) (Num 0)) [] ms) m 0.
Proof.
  intros Hm. destruct (init_balances ms []) as [Hz Hk]; [constructor|].
  assert (m ∈ obj_keys (foldl (λ b x, obj_set b (Member.id x) (Num 0)) [] ms))
    as Hin by (apply Hk; by left).
  destruct (obj_get_present _ _ Hin) as [v Hv].
  pose proof (obj_get_elem _ _ _ Hv) as Hel.
  eapply Forall_forall in Hz; [|exact Hel]. simpl in Hz. subst v.
  exists 0%Q. split; [done|reflexivity].
Qed.

Lemma calculateBalances_member_aux st groupId group m :
  find_group (groups st) groupId = Some group →
  m ∈ member_ids group →
  has_balance (calculateBalances st groupId) m (expected_balance st groupId m).
Proof.
  intros Hg Hm. unfold calculateBalances. rewrite Hg.
  fold (expenses_of st groupId). fold (payments_of st groupId).
  eapply has_balance_eq;
    [|apply has_balance_payments, has_balance_expenses, has_balance_init, Hm].
  unfold expected_balance. lra.
Qed.








Lemma share_none m splits :
  (∀ sp, sp ∈ splits → Split.memberId sp ≠ m) → share m splits == 0.
Proof.
  induction splits as [|sp splits IH]; intros H; simpl; [lra|].
  fold (share m splits).
  destruct (String.eqb_spec (Split.memberId sp) m) as [Heq|_].
  - exfalso. eapply H; [apply list_elem_of_here|done].
  - rewrite IH; [lra|]. intros sp' Hsp'. apply H. by apply list_elem_of_further.
Qed.

Lemma expenses_effect_none m es :
  (∀ e, e ∈ es → ¬ mentions_expense m e) → expenses_effect m es == 0.
Proof.
  induction es as [|e es IH]; intros H; simpl; [lra|].
  fold (expenses_effect m es).
  rewrite IH by (intros e' He'; apply H; by apply list_elem_of_further).
  unfold expense_effect.
  assert (¬ mentions_expense m e) as Hno by (apply H, list_elem_of_here).
  rewrite share_none.
  - destruct (String.eqb_spec (Expense.paidBy e) m) as [Heq|_]; [|lra].
    exfalso. apply Hno. by left.
  - intros sp Hsp Heq. apply Hno. right. by exists sp.
Qed.

Lemma payments_effect_none m ps :
  (∀ p, p ∈ ps → ¬ mentions_payment m p) → payments_effect m ps == 0.
Proof.
  induction ps as [|p ps IH]; intros H; simpl; [lra|].
  fold (payments_effect m ps).
  rewrite IH by (intros p' Hp'; apply H; by apply list_elem_of_further).
  assert (¬ mentions_payment m p) as Hno by (apply H, list_elem_of_here).
  unfold payment_effect.
  destruct (String.eqb_spec (Payment.fromId p) m) as [Heq|_];
    [exfalso; apply Hno; by left|].
  destruct (String.eqb_spec (Payment.toId p) m) as [Heq|_];
    [exfalso; apply Hno; by right|]. lra.
Qed.

(** X3.  A member whom no expense and no payment of the group mentions
    has balance 0. *)
Theorem calculateBalances_untouched (st : AppState) (groupId : string)
    (group : Group.t) (m : string) :
  find_group (groups st) groupId = Some group →
  m ∈ member_ids group →
  ¬ referenced st groupId m →
  has_balance (calculateBalances st groupId) m 0.
Proof.
  intros Hg Hm Hno.
  eapply has_balance_eq; [|by apply (calculateBalances_member_aux st groupId group)].
  unfold expected_balance.
  rewrite expenses_effect_none, payments_effect_none; [lra| |].
  - intros p Hp Hmen. apply Hno. right. by exists p.
  - intros e He Hmen. apply Hno. left. by exists e.
Qed.

Lemma calculateBalances_untouched_witness :
  has_balance (calculateBalances stray_app "g-trio") "m-bob" 0.
Proof.
  apply (calculateBalances_untouched stray_app "g-trio" trio "m-bob").
  - reflexivity.
  - vm_compute. apply list_elem_of_further, list_elem_of_here.
  - intros [(e & He & Hm)|(p & Hp & Hm)].
    + apply list_elem_of_In in He. simpl in He. destruct He as [<-|[]].
      destruct Hm as [Hm|(sp & Hsp & Hm)]; [discriminate Hm|].
      apply list_elem_of_In in Hsp. simpl in Hsp. destruct Hsp as [<-|[]].
      discriminate Hm.
    + apply list_elem_of_In in Hp. simpl in Hp. destruct Hp.
Defined.

(** ** Keys of the mapping and dangling references *)














(** ** How a payment moves the balances *)






(** ** Recording what the planner proposes *)










(** ** Drift of the total *)




(** ** The expense form *)






Lemma handleSubmit_customSplits env st group m :
  AddExpenseModal.customSplits (fst (AddExpenseModal.handleSubmit env st group m))
  = AddExpenseModal.customSplits m.
Proof.
  unfold AddExpenseModal.handleSubmit.
  destruct (AddExpenseModal.amount m) as [|total]; [done|].
  destruct (negb (truthy (trim (AddExpenseModal.description m)))
            || negb (truthy (AddExpenseModal.paidBy m))); [done|].
  destruct (AddExpenseModal.splitType m); [done|].
  unfold AddExpenseModal.validateCustomSplits.
  destruct (AddExpenseModal.mismatch _ _); [done|].
  by destruct (existsb _ _).
Qed.

Lemma expense_form_ids group m :
  expense_form_reachable group m →
  map fst (AddExpenseModal.customSplits m) = member_ids group.
Proof.
  induction 1 as [|m v _ IH|m v _ IH|m v _ IH|m v _ IH|m k v _ IH
                  |env st m _ IH]; try exact IH.
  - unfold AddExpenseModal.init, member_ids. simpl. by rewrite map_map.
  - rewrite <- IH. unfold AddExpenseModal.handleCustomSplitChange. simpl.
    rewrite map_map. apply map_ext. intros s.
    by destruct (String.eqb (fst s) k).
  - by rewrite handleSubmit_customSplits.
Qed.

(** X10.  Whatever is typed into the expense form of a group, its custom
    split lines stay one per member of the group, in the order of the
    member list; so the splits of a custom expense that the form submits
    name exactly the members of the group, each once per occurrence in
    the member list. *)
Theorem expense_form_lines (group : Group.t) (m : AddExpenseModal.t) :
  expense_form_reachable group m →
  map fst (AddExpenseModal.customSplits m) = member_ids group
  ∧ (AddExpenseModal.splitType m = custom →
     map Split.memberId (AddExpenseModal.finalSplits m) = member_ids group).
Proof.
  intros Hreach.
  pose proof (expense_form_ids group m Hreach) as Hids.
  split; [done|]. intros Hc. unfold AddExpenseModal.finalSplits.
  by rewrite Hc, map_map.
Qed.

Lemma expense_form_lines_witness :
  map fst (AddExpenseModal.customSplits fair_form) = member_ids flat
  ∧ (AddExpenseModal.splitType fair_form = custom →
     map Split.memberId (AddExpenseModal.finalSplits fair_form) = member_ids flat).
Proof.
  apply (expense_form_lines flat fair_form).
  unfold fair_form. repeat constructor.
Defined.

(** ** Equal splits *)






(** ** More on the settlement planner *)



Lemma while_loop_prefix group fuel s s' :
  while_loop fuel group s = Returns s' →
  ∃ l, settlements s' = settlements s ++ l.
Proof.
  revert s. induction fuel as [|fuel IH]; intros s Hrun; simpl in Hrun.
  - destruct (loop_cond s); [done|]. injection Hrun as <-. exists [].
    by rewrite app_nil_r.
  - destruct (loop_cond s); [|injection Hrun as <-; exists []; by rewrite app_nil_r].
    destruct (loop_body group s) as [s1| |] eqn:Hbody; [|done..].
    simpl in Hrun. destruct (IH _ Hrun) as [l Hl].
    destruct (loop_body_Returns _ _ _ Hbody) as (c & d & fm & tm & _ & _ & _ & _ & ->).
    simpl in Hl. rewrite Hl, <- app_assoc. by eexists.
Qed.

Lemma sorted_lengths balances :
  length (sorted_creditors balances) = num_creditors balances
  ∧ length (sorted_debtors balances) = num_debtors balances.
Proof.
  unfold sorted_creditors, sorted_debtors.
  rewrite !(Permutation_length (array_sort_perm _ _)).
  by rewrite creditors_of_length, debtors_of_length.
Qed.

(** X14.  [settleDebts] returns at least as many settlements as the
    smaller of the number of creditors and the number of debtors, and it
    returns the empty list exactly when there is no creditor or no
    debtor. *)
Theorem settleDebts_count_lower (balances : obj jsnum) (group : Group.t)
    (out : list Settlement.t) :
  settleDebts balances group = Returns out →
  (Nat.min (num_creditors balances) (num_debtors balances) ≤ length out)%nat
  ∧ (out = [] ↔ num_creditors balances = 0%nat ∨ num_debtors balances = 0%nat).
Proof.
  intros Hrun. destruct (sorted_lengths balances) as [Hnc Hnd].
  rewrite settleDebts_unfold in Hrun.
  destruct (while_loop _ _ _) as [s| |] eqn:Hloop; [|done..].
  injection Hrun as <-.
  destruct (while_loop_inv
              (λ s, (i s ≤ length (settlements s))%nat
                    ∧ (j s ≤ length (settlements s))%nat
                    ∧ length (creditors s) = num_creditors balances
                    ∧ length (debtors s) = num_debtors balances) group)
    with (3 := Hloop) as [(Hi & Hj & Hlc & Hld) Hcond].
  - intros s1 s2 (H1 & H2 & H3 & H4) _ Hbody.
    destruct (loop_body_Returns _ _ _ Hbody)
      as (c & d & fm & tm & _ & _ & _ & _ & ->).
    cbn [i j settlements creditors debtors]. rewrite !length_insert, length_app.
    simpl. repeat split; try done.
    + destruct (js_lt _ 0.01); lia.
    + destruct (js_lt (Entry.amount d - _) 0.01); lia.
  - simpl. repeat split; try done; lia.
  - unfold loop_cond in Hcond. rewrite Hlc, Hld in Hcond.
    apply andb_false_iff in Hcond. rewrite !Nat.ltb_ge in Hcond.
    split; [lia|]. split.
    + intros Hout. rewrite Hout in Hi, Hj. simpl in Hi, Hj. lia.
    + intros Hzero.
      assert (loop_cond (initial_state balances) = false) as Hc0.
      { unfold loop_cond. simpl. rewrite Hnc, Hnd.
        apply andb_false_iff. rewrite !Nat.ltb_ge. lia. }
      rewrite (while_loop_done _ _ _ Hc0) in Hloop. by injection Hloop as <-.
Qed.

Lemma settleDebts_count_lower_witness :
  (Nat.min (num_creditors dinner_balances) (num_debtors dinner_balances)
   ≤ length dinner_settlements)%nat
  ∧ (dinner_settlements = []
     ↔ num_creditors dinner_balances = 0%nat ∨ num_debtors dinner_balances = 0%nat).
Proof.
  apply (settleDebts_count_lower dinner_balances trio dinner_settlements).
  vm_compute. reflexivity.
Defined.

Lemma find_member_None ms memberId :
  memberId ∉ map Member.id ms → find_member ms memberId = None.
Proof.
  induction ms as [|m ms IH]; simpl; intros Hni; [done|].
  apply not_elem_of_cons in Hni as [Hne Hni]. unfold find_member in *. simpl.
  destruct (String.eqb_spec (Member.id m) memberId); [congruence|by apply IH].
Qed.

(** X15.  When the mapping has a creditor and a debtor and the debtors
    (or the creditors) are all ids that the group does not have,
    [settleDebts] throws on its first iteration. *)
Theorem settleDebts_throws (balances : obj jsnum) (group : Group.t) :
  (0 < num_creditors balances)%nat →
  (0 < num_debtors balances)%nat →
  (∀ k v, (k, v) ∈ balances → is_debtor v = true → k ∉ member_ids group)
  ∨ (∀ k v, (k, v) ∈ balances → is_creditor v = true → k ∉ member_ids group) →
  settleDebts balances group = TypeError.
Proof.
  intros Hc Hd Hmissing. destruct (sorted_lengths balances) as [Hnc Hnd].
  rewrite settleDebts_unfold.
  destruct (sorted_creditors balances) as [|c cs] eqn:Ecs; [simpl in Hnc; lia|].
  destruct (sorted_debtors balances) as [|d ds] eqn:Eds; [simpl in Hnd; lia|].
  assert (c ∈ creditors_of balances) as Hcin.
  { apply sorted_creditors_elem. rewrite Ecs. apply list_elem_of_here. }
  assert (d ∈ debtors_of balances) as Hdin.
  { apply sorted_debtors_elem. rewrite Eds. apply list_elem_of_here. }
  apply creditors_of_elem in Hcin as [Hcin Hcgt].
  apply debtors_of_elem in Hdin as (q & Hdin & Hdlt & _).
  unfold initial_state. rewrite Ecs, Eds. cbn [length Nat.add while_loop].
  unfold loop_cond at 1. cbn [i j creditors debtors length Nat.ltb Nat.leb andb].
  unfold loop_body at 1. cbn [i j creditors debtors lookup list_lookup].
  destruct Hmissing as [Hm|Hm].
  - rewrite (find_member_None _ (Entry.memberId d)); [done|].
    apply (Hm _ _ Hdin). simpl. by destruct (js_lt_spec q (- 0.01)).
  - destruct (find_member _ (Entry.memberId d)); [|done].
    rewrite (find_member_None _ (Entry.memberId c)); [done|].
    apply (Hm _ _ Hcin). simpl. by destruct (js_gt_spec (Entry.amount c) 0.01).
Qed.

Lemma settleDebts_throws_witness : settleDebts foreign_balances flat = TypeError.
Proof.
  apply (settleDebts_throws foreign_balances flat).
  - vm_compute. lia.
  - vm_compute. lia.
  - left. intros k v Hin Hdeb Hmem.
    apply list_elem_of_In in Hin. simpl in Hin.
    destruct Hin as [[= <- <-]|[[= <- <-]|[]]]; [discriminate Hdeb|].
    apply list_elem_of_In in Hmem. simpl in Hmem.
    destruct Hmem as [H|[H|[]]]; discriminate H.
Defined.

Lemma sort_insert_sorted x l :
  StronglySorted amount_ge l →
  StronglySorted amount_ge (sort_insert by_amount_desc x l).
Proof.
  induction 1 as [|y l Hl IH Hy]; simpl.
  - repeat constructor.
  - unfold by_amount_desc at 1.
    destruct (js_gt_spec (Entry.amount y - Entry.amount x) 0) as [Hlt|Hge].
    + constructor; [done|]. rewrite sort_insert_perm. constructor; [|done].
      unfold amount_ge. lra.
    + constructor; [by constructor|]. constructor; [unfold amount_ge; lra|].
      eapply Forall_impl; [exact Hy|]. unfold amount_ge. intros z Hz. lra.
Qed.

Lemma array_sort_sorted l : StronglySorted amount_ge (array_sort by_amount_desc l).
Proof.
  induction l as [|x l IH]; simpl; [constructor|]. by apply sort_insert_sorted.
Qed.

Lemma sorted_head_max c cs e :
  StronglySorted amount_ge (c :: cs) → e ∈ c :: cs →
  (Entry.amount e <= Entry.amount c)%Q.
Proof.
  intros Hs He. apply StronglySorted_inv in Hs as [_ Hall].
  apply elem_of_cons in He as [->|He]; [lra|].
  eapply Forall_forall in Hall; [|exact He]. exact Hall.
Qed.

(** X16.  The first settlement that [settleDebts] returns goes from the
    member with the lowest balance to the member with the highest
    balance, and its amount is the smaller of what the one owes and what
    the other is owed. *)
Theorem settleDebts_first_largest (balances : obj jsnum) (group : Group.t)
    (x : Settlement.t) (rest : list Settlement.t) :
  settleDebts balances group = Returns (x :: rest) →
  ∃ qc qd, (Settlement.toId x, Num qc) ∈ balances
           ∧ (Settlement.fromId x, Num qd) ∈ balances
           ∧ (∀ k q, (k, Num q) ∈ balances → (qd <= q <= qc)%Q)
           ∧ Settlement.amount x == Qmin qc (- qd).
Proof.
  intros Hrun. rewrite settleDebts_unfold in Hrun.
  destruct (while_loop _ _ _) as [s| |] eqn:Hloop; [|done..].
  injection Hrun as Hout.
  destruct (sorted_creditors balances) as [|c cs] eqn:Ecs.
  { unfold initial_state in Hloop. rewrite Ecs in Hloop.
    rewrite while_loop_done in Hloop by done. injection Hloop as <-. done. }
  destruct (sorted_debtors balances) as [|d ds] eqn:Eds.
  { unfold initial_state in Hloop. rewrite Ecs, Eds in Hloop.
    rewrite while_loop_done in Hloop by done. injection Hloop as <-. done. }
  unfold initial_state in Hloop. rewrite Ecs, Eds in Hloop.
  cbn [length Nat.add while_loop] in Hloop.
  unfold loop_cond at 1 in Hloop.
  cbn [i j creditors debtors length Nat.ltb Nat.leb andb] in Hloop.
  destruct (loop_body group (mkLoop (c :: cs) (d :: ds) 0 0 [])) as [s1| |] eqn:Hbody;
    [|done..].
  cbn [mbind outcome_bind] in Hloop.
  destruct (loop_body_Returns _ _ _ Hbody)
    as (c' & d' & fm & tm & Hc & Hd & Hfm & Htm & ->).
  cbn [i j creditors debtors lookup list_lookup] in Hc, Hd.
  injection Hc as <-. injection Hd as <-.
  destruct (while_loop_prefix _ _ _ _ Hloop) as [l Hl].
  cbn [settlements app] in Hl. rewrite Hout in Hl. injection Hl as -> _.
  apply find_member_Some in Hfm as [_ Hfm]. apply find_member_Some in Htm as [_ Htm].
  cbn [Settlement.toId Settlement.fromId Settlement.amount]. rewrite Hfm, Htm.
  assert (StronglySorted amount_ge (c :: cs)) as Hsc.
  { rewrite <- Ecs. apply array_sort_sorted. }
  assert (StronglySorted amount_ge (d :: ds)) as Hsd.
  { rewrite <- Eds. apply array_sort_sorted. }
  assert (c ∈ creditors_of balances) as Hcin.
  { apply sorted_creditors_elem. rewrite Ecs. apply list_elem_of_here. }
  assert (d ∈ debtors_of balances) as Hdin.
  { apply sorted_debtors_elem. rewrite Eds. apply list_elem_of_here. }
  apply creditors_of_elem in Hcin as [Hcin Hcgt].
  apply debtors_of_elem in Hdin as (qd & Hdin & Hdlt & Hdabs).
  exists (Entry.amount c), qd. split; [done|]. split; [done|]. split.
  - intros k q Hin. split.
    + destruct (Qlt_le_dec q (- 0.01)) as [Hlt|Hge]; [|lra].
      assert (Entry.mk k (Qabs q) ∈ d :: ds) as He.
      { rewrite <- Eds. apply sorted_debtors_elem, debtors_of_elem. by exists q. }
      pose proof (sorted_head_max _ _ _ Hsd He) as Hle. simpl in Hle.
      rewrite Hdabs in Hle. rewrite !Qabs_neg in Hle by lra. lra.
    + destruct (Qlt_le_dec 0.01 q) as [Hgt|Hle]; [|lra].
      assert (Entry.mk k q ∈ c :: cs) as He.
      { rewrite <- Ecs. apply sorted_creditors_elem, creditors_of_elem. by split. }
      apply (sorted_head_max _ _ _ Hsc He).
  - rewrite Hdabs.
    assert (Qabs qd == - qd) as Habs by (apply Qabs_neg; lra).
    destruct (Q.min_spec (Entry.amount c) (Qabs qd)) as [[? ->]|[? ->]],
             (Q.min_spec (Entry.amount c) (- qd)) as [[? ->]|[? ->]]; lra.
Qed.

Lemma settleDebts_first_largest_witness :
  ∃ qc qd, ("m-ann", Num qc) ∈ dinner_balances
           ∧ ("m-bob", Num qd) ∈ dinner_balances
           ∧ (∀ k q, (k, Num q) ∈ dinner_balances → (qd <= q <= qc)%Q)
           ∧ 90 # 3 == Qmin qc (- qd).
Proof.
  apply (settleDebts_first_largest dinner_balances trio
           (Settlement.mk "Bob" "m-bob" "Ann" "m-ann" (90 # 3))
           [Settlement.mk "Cy" "m-cy" "Ann" "m-ann" (270 # 9)]).
  vm_compute. reflexivity.
Defined.

(** ** The group form *)

Lemma trimStart_clean s : starts_clean (trimStart s).
Proof.
  induction s as [|c s IH]; simpl; [done|].
  destruct (is_whitespace c) eqn:Hc; [exact IH|exact Hc].
Qed.

Lemma trimEnd_clean s : starts_clean s → starts_clean (trimEnd s).
Proof.
  destruct s as [|c s]; simpl; [done|]. intros Hc.
  destruct (trimEnd s); simpl; [by rewrite Hc|done].
Qed.

Lemma trimStart_id s : starts_clean s → trimStart s = s.
Proof. destruct s as [|c s]; simpl; [done|]. by intros ->. Qed.

Lemma trimEnd_idemp s : trimEnd (trimEnd s) = trimEnd s.
Proof.
  induction s as [|c s IH]; simpl; [done|].
  destruct (trimEnd s) as [|c' r] eqn:Hr.
  - destruct (is_whitespace c) eqn:Hc; simpl; [done|]. by rewrite Hc.
  - simpl in *. by rewrite IH.
Qed.

Lemma trim_idemp s : trim (trim s) = trim s.
Proof.
  unfold trim.
  rewrite (trimStart_id (trimEnd (trimStart s))).
  - apply trimEnd_idemp.
  - apply trimEnd_clean, trimStart_clean.
Qed.

Lemma filter_index_elem {A} (keep : nat → bool) n (l : list A) x :
  x ∈ filter_index keep n l → x ∈ l.
Proof.
  revert n. induction l as [|y l IH]; intros n; simpl; [done|].
  destruct (keep n).
  - rewrite !elem_of_cons. intros [?|?]; [by left|right; by eapply IH].
  - intros ?. apply elem_of_cons. right. by eapply IH.
Qed.

Lemma filter_index_NoDup {A} (keep : nat → bool) n (l : list A) :
  NoDup l → NoDup (filter_index keep n l).
Proof.
  intros Hnd. revert n. induction Hnd as [|y l Hy Hnd IH]; intros n; simpl;
    [constructor|].
  destruct (keep n); [|apply IH].
  constructor; [|apply IH]. intros Hin. by apply Hy, (filter_index_elem keep (S n)).
Qed.

Lemma filter_index_delete {A} (index n : nat) (l : list A) :
  filter_index (λ i, negb (i =? n + index)%nat) n l = delete index l.
Proof.
  revert index n. induction l as [|y l IH]; intros index n; simpl; [done|].
  destruct index as [|index]; simpl.
  - rewrite Nat.add_0_r, Nat.eqb_refl. simpl.
    clear IH. generalize (S n) at 1 as k, (Nat.lt_succ_diag_r n).
    induction l as [|z l IH]; intros k Hk; simpl; [done|].
    destruct (Nat.eqb_spec k n); [lia|]. simpl. f_equal. apply IH. lia.
  - destruct (Nat.eqb_spec n (n + S index)); [lia|]. simpl. f_equal.
    rewrite <- (IH index (S n)). f_equal.
    replace (S n + index)%nat with (n + S index)%nat by lia. done.
Qed.

(** X17.  [removeMember] takes out exactly the entry at the given index
    and keeps the others in order; with an index beyond the end of the
    list it changes nothing. *)
Theorem removeMember_spec (m : AddGroupModal.t) (index : nat) :
  AddGroupModal.members (removeMember m index)
  = take index (AddGroupModal.members m) ++ drop (S index) (AddGroupModal.members m)
  ∧ ((length (AddGroupModal.members m) ≤ index)%nat → removeMember m index = m)
  ∧ AddGroupModal.name (removeMember m index) = AddGroupModal.name m.
Proof.
  assert (AddGroupModal.members (removeMember m index)
          = delete index (AddGroupModal.members m)) as Hdel.
  { unfold removeMember. simpl.
    by rewrite <- (filter_index_delete index 0 (AddGroupModal.members m)). }
  split; [|split; [|done]].
  - rewrite Hdel. apply delete_take_drop.
  - intros Hlen. destruct m as [name input members]. unfold removeMember in *.
    simpl in *. f_equal. rewrite Hdel.
    rewrite delete_take_drop, take_ge, drop_ge by lia. by rewrite app_nil_r.
Qed.

Lemma clean_names_sub (l l' : list string) :
  clean_names l → NoDup l' → (∀ x, x ∈ l' → x ∈ l) → clean_names l'.
Proof.
  intros [_ Hall] Hnd Hsub. split; [done|].
  apply Forall_forall. intros x Hx. eapply Forall_forall in Hall; [exact Hall|].
  by apply Hsub.
Qed.

Lemma group_form_clean m :
  group_form_reachable m → clean_names (AddGroupModal.members m).
Proof.
  induction 1 as [|m v _ IH|m v _ IH|m _ IH|m index _ IH]; try exact IH.
  - split; constructor.
  - unfold AddGroupModal.addMember.
    destruct (truthy (trim (AddGroupModal.memberInput m))) eqn:Ht; [|exact IH].
    destruct (includes (AddGroupModal.members m) (trim (AddGroupModal.memberInput m)))
      eqn:Hi; [exact IH|].
    simpl. destruct IH as [Hnd Hall]. split.
    + apply NoDup_app. split; [done|]. split; [|apply NoDup_singleton].
      intros x Hx Hx'. apply list_elem_of_singleton in Hx'. subst x.
      apply includes_spec in Hx. congruence.
    + apply Forall_app. split; [done|]. constructor; [|constructor].
      split; [by apply truthy_spec|apply trim_idemp].
  - eapply clean_names_sub; [exact IH| |].
    + apply filter_index_NoDup, IH.
    + intros x. apply filter_index_elem.
Qed.

(** X18.  However the group form was filled in (names typed, members
    added and removed), its member list holds no name twice, no empty
    name and only trimmed names; so a group that submitting the form
    appends has at least two members, with pairwise distinct, non-empty,
    trimmed names, and a name that is not blank. *)
Theorem group_form_invariant (m : AddGroupModal.t) :
  group_form_reachable m →
  clean_names (AddGroupModal.members m)
  ∧ ∀ env st g,
      groups (AddGroupModal.handleSubmit env st m) = groups st ++ [g] →
      (2 ≤ length (Group.members g))%nat
      ∧ clean_names (map Member.name (Group.members g))
      ∧ trim (Group.name g) ≠ EmptyString.
Proof.
  intros Hreach. pose proof (group_form_clean m Hreach) as Hclean.
  split; [done|]. intros env st g. unfold AddGroupModal.handleSubmit.
  destruct (truthy (trim (AddGroupModal.name m))) eqn:Hname; cbn [andb].
  2:{ intros H. apply (f_equal length) in H. rewrite length_app in H.
      simpl in H. lia. }
  destruct (2 <=? length (AddGroupModal.members m))%nat eqn:Hlen.
  2:{ intros H. apply (f_equal length) in H. rewrite length_app in H.
      simpl in H. lia. }
  unfold addGroup. simpl. intros H. apply app_inv_head in H. injection H as <-.
  simpl. rewrite imap_member_names, length_imap.
  apply Nat.leb_le in Hlen. apply truthy_spec in Hname. done.
Qed.

Lemma group_form_invariant_witness :
  clean_names (AddGroupModal.members club_form)
  ∧ ∀ env st g,
      groups (AddGroupModal.handleSubmit env st club_form) = groups st ++ [g] →
      (2 ≤ length (Group.members g))%nat
      ∧ clean_names (map Member.name (Group.members g))
      ∧ trim (Group.name g) ≠ EmptyString.
Proof.
  apply (group_form_invariant club_form). unfold club_form. repeat constructor.
Defined.

Lemma removeMember_spec_witness :
  removeMember club_form 7 = club_form.
Proof.
  apply (proj1 (proj2 (removeMember_spec club_form 7))). vm_compute. lia.
Defined.

(** ** The dashboard and the group cards *)











(** ** The ledger the component builds *)














